(** * ganache-cli-block-explorer: ABI decoding of call data and event logs

    Shallow embedding of [utils] (the ABI registry, [ParseTransactionData],
    [formatValue], [ParseEventLogs]) and of [LoadContractABIs].

    The decoding itself is done by go-ethereum ([accounts/abi], [common]),
    which is not part of the repository: its operations are taken as an
    interface ([GoEthereum]) and the program is verified against every
    implementation of that interface.  A small implementation ([Fixture])
    is used to run the program on concrete inputs. *)

From Stdlib Require Import ZArith NArith Ascii String Strings.Byte.
From stdpp Require Import base gmap strings list pretty.

Local Open Scope string_scope.

(** ** Bytes, hashes, addresses *)

Abbreviation bytes := (list byte).

#[global] Instance byte_eq_dec : EqDecision byte := Byte.byte_eq_dec.

(** [common.Hash] is [[32]byte], [common.Address] is [[20]byte]. *)
Abbreviation Hash := (list byte) (only parsing).
Abbreviation Address := (list byte) (only parsing).

(** [encoding/hex]: [hextable[v>>4]], [hextable[v&0x0f]] for every byte. *)
Definition hextable : string := "0123456789abcdef".

Definition hexdigit (n : N) : ascii :=
  match String.get (N.to_nat n) hextable with
  | Some c => c
  | None => "0"%char
  end.

Definition hex_of_byte (v : byte) (rest : string) : string :=
  String (hexdigit (N.shiftr (Byte.to_N v) 4))
    (String (hexdigit (N.land (Byte.to_N v) 15)) rest).

(** [common.Bytes2Hex(d) = hex.EncodeToString(d)]. *)
Definition Bytes2Hex (d : bytes) : string := foldr hex_of_byte "" d.

(** A character of [hextable]. *)
Definition lower_hex (c : ascii) : Prop :=
  existsb (Ascii.eqb c) (list_ascii_of_string hextable) = true.

(** [common.Hash.Hex() = hexutil.Encode(h[:]) = "0x" + hex]. *)
Definition HashHex (h : Hash) : string := "0x" +:+ Bytes2Hex h.

(** ** go-ethereum data the program reads *)

(** [abi.Type]; the program only calls [String()], which returns the
    canonical type name kept in [stringKind]. *)
Module AbiType.
Record t := mk { stringKind : string }.
Definition String (ty : t) : string := stringKind ty.
End AbiType.

(** [abi.Argument] *)
Module Argument.
Record t := mk { Name : string; Type_ : AbiType.t; Indexed : bool }.
End Argument.

Abbreviation Arguments := (list Argument.t) (only parsing).

(** [abi.Method]: the fields the program reads, and the selector [ID]. *)
Module Method.
Record t := mk { Name : string; Sig : string; ID : bytes; Inputs : Arguments }.
End Method.

(** [abi.Event] *)
Module Event.
Record t := mk { Name : string; Sig : string; ID : Hash; Inputs : Arguments }.
End Event.

(** [Arguments.NonIndexed()] *)
Definition NonIndexed (arguments : Arguments) : Arguments :=
  filter (λ arg, Argument.Indexed arg = false) arguments.

(** The arguments flagged [indexed], in declaration order. *)
Definition IndexedArgs (arguments : Arguments) : Arguments :=
  filter (λ arg, Argument.Indexed arg = true) arguments.

(** Dynamic values held in an [interface{}]: the Go types that the type
    switch of [formatValue] tells apart, and the ones the ABI decoder
    produces besides. *)
Inductive Value :=
  | VAddress (a : Address)      (* common.Address *)
  | VBytes (b : bytes)          (* []byte *)
  | VString (s : string)        (* string *)
  | VBool (b : bool)            (* bool *)
  | VBigInt (n : Z)             (* *big.Int *)
  | VFixedBytes (b : bytes).    (* [N]byte *)

(** A Go call returning [(T, error)]; an error is kept as its message. *)
Inductive result (A : Type) :=
  | Ok (a : A)
  | Err (msg : string).
Arguments Ok {A} a.
Arguments Err {A} msg.

(** The first success of [lookup] along [l]: a loop that [continue]s on an
    error and returns on the first hit. *)
Fixpoint first_match {A B} (lookup : A → result B) (l : list A) : option B :=
  match l with
  | [] => None
  | x :: rest =>
      match lookup x with
      | Err _ => first_match lookup rest
      | Ok b => Some b
      end
  end.

(** [v[arg.Name] = values[i]] for the paired arguments and values. *)
Definition store_all (args : Arguments) (values : list Value)
    (v : gmap string Value) : gmap string Value :=
  foldl (λ acc p, <[Argument.Name p.1 := p.2]> acc) v (zip args values).

(** ** The interface to go-ethereum *)

Class GoEthereum := {
  (** [abi.ABI] *)
  ABI : Type;
  (** [abi.JSON(reader)] *)
  JSON : bytes → result ABI;
  (** [ABI.MethodById(sigdata)] *)
  MethodById : ABI → bytes → result Method.t;
  (** [ABI.EventByID(topic)] *)
  EventByID : ABI → Hash → result Event.t;
  (** [Arguments.Unpack(data)] *)
  Unpack : Arguments → bytes → result (list Value);
  (** [Arguments.UnpackIntoMap(v, data)]: the map after the call *)
  UnpackIntoMap : Arguments → gmap string Value → bytes → result (gmap string Value);
  (** [common.Address.Hex()], the EIP-55 checksummed form *)
  AddressHex : Address → string;
  (** [fmt.Sprintf("%v", v)] *)
  Sprintf_v : Value → string
}.

(** What the program relies on from the decoder. *)
Class GoEthereumSpec (G : GoEthereum) : Prop := {
  (** [Unpack] yields one value per non-indexed argument. *)
  Unpack_length : ∀ arguments data values,
    Unpack arguments data = Ok values →
    length values = length (NonIndexed arguments);
  (** [UnpackIntoMap] stores one value under the name of each non-indexed
      argument and leaves the other keys alone. *)
  UnpackIntoMap_stores : ∀ arguments v data v',
    UnpackIntoMap arguments v data = Ok v' →
    ∃ values, length values = length (NonIndexed arguments)
              ∧ v' = store_all (NonIndexed arguments) values v
}.

(** ** conf *)

Module ContractConfig.
Record t := mk { Path : string; Name : string }.
End ContractConfig.

(** ** utils *)

Section Utils.
Context `{GoEthereum}.

(** [ContractInfo] *)
Record ContractInfo := { ci_Name : string; ci_ABI : ABI }.

(** [ParsedParameter]; [Value] always holds the string [formatValue]
    returned. *)
Record ParsedParameter := {
  pp_Name : string;
  pp_Type : string;
  pp_Value : string;
  pp_Indexed : bool
}.

(** [ParsedTxData]; a nil [Parameters] is [[]], an unset string is [""]. *)
Record ParsedTxData := {
  MethodName : string;
  MethodSignature : string;
  Parameters : list ParsedParameter;
  Error : string
}.

(** [type ContractABIs map[string]ContractInfo] *)
Definition ContractABIs := gmap string ContractInfo.

(** [formatValue] *)
Definition formatValue (value : Value) : string :=
  match value with
  | VAddress v => AddressHex v
  | VBytes v => Bytes2Hex v
  | VString v => v
  | v => Sprintf_v v
  end.

(** *** LoadContractABIs *)

(** The loop of [LoadContractABIs] over the remaining [contracts], with
    the map built so far.  [ReadFile] is [os.ReadFile] on the file system
    the process runs on.  The two components are the two results of the Go
    function: the registry pointer ([None] is [nil]) and the error. *)
Fixpoint load_from (ReadFile : string → result bytes)
    (contracts : list ContractConfig.t) (contractABIs : ContractABIs)
    : option ContractABIs * option string :=
  match contracts with
  | [] => (Some contractABIs, None)
  | contract :: rest =>
      match ReadFile (ContractConfig.Path contract) with
      | Err err =>
          (None, Some ("failed to read ABI file " +:+ ContractConfig.Path contract
                       +:+ ": " +:+ err))
      | Ok abiBytes =>
          match JSON abiBytes with
          | Err err =>
              (None, Some ("failed to parse ABI for contract "
                           +:+ ContractConfig.Name contract +:+ ": " +:+ err))
          | Ok contractABI =>
              load_from ReadFile rest
                (<[ContractConfig.Name contract :=
                     {| ci_Name := ContractConfig.Name contract;
                        ci_ABI := contractABI |}]> contractABIs)
          end
      end
  end.

Definition LoadContractABIs (ReadFile : string → result bytes)
    (contracts : list ContractConfig.t) : option ContractABIs * option string :=
  load_from ReadFile contracts ∅.

(** *** Ranging over the registry

    [for _, contractInfo := range *contractABIs] visits every entry of the
    map once, in an order Go leaves unspecified.  The parsers below take
    the sequence of visited entries; [range_over] says which sequences a
    [range] over a given registry can produce. *)
Definition range_over (contractABIs : ContractABIs)
    (visited : list ContractInfo) : Prop :=
  visited ≡ₚ (map_to_list contractABIs).*2.

(** *** ParseTransactionData *)

(** "Build parameter list": input [i] is kept when [i < len(inputs)]
    ([inputs !! i] is [Some] exactly then). *)
Fixpoint tx_parameters (i : nat) (declared : Arguments) (inputs : list Value)
    : list ParsedParameter :=
  match declared with
  | [] => []
  | input :: rest =>
      match inputs !! i with
      | Some value =>
          {| pp_Name := Argument.Name input;
             pp_Type := AbiType.String (Argument.Type_ input);
             pp_Value := formatValue value;
             pp_Indexed := false |} :: tx_parameters (S i) rest inputs
      | None => tx_parameters (S i) rest inputs
      end
  end.

(** The loop body once [MethodById] has found [method]. *)
Definition tx_matched (method : Method.t) (data : bytes) : ParsedTxData :=
  match Unpack (Method.Inputs method) (drop 4 data) with
  | Err err =>
      {| MethodName := Method.Name method;
         MethodSignature := Method.Sig method;
         Parameters := [];
         Error := "failed to unpack inputs: " +:+ err |}
  | Ok inputs =>
      {| MethodName := Method.Name method;
         MethodSignature := Method.Sig method;
         Parameters := tx_parameters 0 (Method.Inputs method) inputs;
         Error := "" |}
  end.

Definition method_not_found : ParsedTxData :=
  {| MethodName := ""; MethodSignature := ""; Parameters := [];
     Error := "method not found in any loaded contract ABI" |}.

(** "Try to match method in all contracts" *)
Fixpoint tx_scan (visited : list ContractInfo) (data : bytes) : ParsedTxData :=
  match visited with
  | [] => method_not_found
  | contractInfo :: rest =>
      match MethodById (ci_ABI contractInfo) (take 4 data) with
      | Err _ => tx_scan rest data
      | Ok method => tx_matched method data
      end
  end.

Definition ParseTransactionData (visited : list ContractInfo) (data : bytes)
    : ParsedTxData :=
  if decide (length data < 4) then
    {| MethodName := ""; MethodSignature := ""; Parameters := [];
       Error := "transaction data too short" |}
  else tx_scan visited data.

(** *** ParseEventLogs *)

(** "Parse non-indexed parameters (in data)": the map [eventData] after
    this step, or the error of [UnpackIntoMap]. *)
Definition unpack_non_indexed (event : Event.t) (data : bytes)
    (eventData : gmap string Value) : result (gmap string Value) :=
  if decide (0 < length data) then
    let nonIndexedArgs := NonIndexed (Event.Inputs event) in
    if decide (0 < length nonIndexedArgs) then
      UnpackIntoMap (Event.Inputs event) eventData data
    else Ok eventData
  else Ok eventData.

(** "Parse indexed parameters (in topics ...)": [topics !! topicIndex] is
    [Some] exactly when [topicIndex < len(topics)]. *)
Fixpoint store_indexed (inputs : Arguments) (topics : list Hash)
    (topicIndex : nat) (eventData : gmap string Value) : gmap string Value :=
  match inputs with
  | [] => eventData
  | input :: rest =>
      match Argument.Indexed input, topics !! topicIndex with
      | true, Some topic =>
          store_indexed rest topics (S topicIndex)
            (<[Argument.Name input := VString (HashHex topic)]> eventData)
      | _, _ => store_indexed rest topics topicIndex eventData
      end
  end.

(** "Build parameter list" *)
Fixpoint event_parameters (inputs : Arguments) (eventData : gmap string Value)
    : list ParsedParameter :=
  match inputs with
  | [] => []
  | input :: rest =>
      match eventData !! Argument.Name input with
      | Some value =>
          {| pp_Name := Argument.Name input;
             pp_Type := AbiType.String (Argument.Type_ input);
             pp_Value := formatValue value;
             pp_Indexed := Argument.Indexed input |}
            :: event_parameters rest eventData
      | None => event_parameters rest eventData
      end
  end.

(** The loop body once [EventByID] has found [event]. *)
Definition event_matched (event : Event.t) (topics : list Hash) (data : bytes)
    : ParsedTxData :=
  match unpack_non_indexed event data ∅ with
  | Err err =>
      {| MethodName := Event.Name event;
         MethodSignature := "";
         Parameters := [];
         Error := "failed to unpack event data: " +:+ err |}
  | Ok eventData =>
      {| MethodName := Event.Name event;
         MethodSignature := Event.Sig event;
         Parameters :=
           event_parameters (Event.Inputs event)
             (store_indexed (Event.Inputs event) topics 1 eventData);
         Error := "" |}
  end.

Definition event_not_found : ParsedTxData :=
  {| MethodName := ""; MethodSignature := ""; Parameters := [];
     Error := "event not found in any loaded contract ABI" |}.

(** "Try to match event in all contracts" *)
Fixpoint event_scan (visited : list ContractInfo) (eventID : Hash)
    (topics : list Hash) (data : bytes) : ParsedTxData :=
  match visited with
  | [] => event_not_found
  | contractInfo :: rest =>
      match EventByID (ci_ABI contractInfo) eventID with
      | Err _ => event_scan rest eventID topics data
      | Ok event => event_matched event topics data
      end
  end.

Definition ParseEventLogs (visited : list ContractInfo) (topics : list Hash)
    (data : bytes) : ParsedTxData :=
  match topics with
  | [] =>
      {| MethodName := ""; MethodSignature := ""; Parameters := [];
         Error := "no topics in log" |}
  | eventID :: _ => event_scan visited eventID topics data
  end.

(** *** The member a scan settles on

    The method, respectively event, of the first visited descriptor in
    which the lookup succeeds. *)
Definition matched_method (visited : list ContractInfo) (data : bytes)
    : option Method.t :=
  first_match (λ contractInfo, MethodById (ci_ABI contractInfo) (take 4 data))
    visited.

Definition matched_event (visited : list ContractInfo) (eventID : Hash)
    : option Event.t :=
  first_match (λ contractInfo, EventByID (ci_ABI contractInfo) eventID) visited.


(** A descriptor file that makes [LoadContractABIs] fail. *)
Definition load_fails (ReadFile : string → result bytes)
    (contract : ContractConfig.t) : Prop :=
  match ReadFile (ContractConfig.Path contract) with
  | Err _ => True
  | Ok abiBytes => match JSON abiBytes with Err _ => True | Ok _ => False end
  end.

(** The entry one turn of the loop of [LoadContractABIs] stores for
    [contract], when its file is read and parsed. *)
Definition loaded_descriptor (ReadFile : string → result bytes)
    (contract : ContractConfig.t) : option ContractInfo :=
  match ReadFile (ContractConfig.Path contract) with
  | Err _ => None
  | Ok abiBytes =>
      match JSON abiBytes with
      | Err _ => None
      | Ok contractABI =>
          Some {| ci_Name := ContractConfig.Name contract; ci_ABI := contractABI |}
      end
  end.

(** The error one turn of the loop of [LoadContractABIs] returns for
    [contract], when its file is not read or not parsed. *)
Definition load_error (ReadFile : string → result bytes)
    (contract : ContractConfig.t) : option string :=
  match ReadFile (ContractConfig.Path contract) with
  | Err err =>
      Some ("failed to read ABI file " +:+ ContractConfig.Path contract
            +:+ ": " +:+ err)
  | Ok abiBytes =>
      match JSON abiBytes with
      | Err err =>
          Some ("failed to parse ABI for contract "
                +:+ ContractConfig.Name contract +:+ ": " +:+ err)
      | Ok _ => None
      end
  end.

End Utils.

(** ** A small go-ethereum for running the program

    Descriptors are lists of methods and events searched from the front;
    the decoder knows the one-word static types [uint256] and [bool] and the
    type [address]. *)
Module Fixture.

Record abi := { Methods : list Method.t; Events : list Event.t }.

(** Only the empty descriptor [[]] is parsed; the empty file is the
    decoder's [EOF]. *)
Definition json (text : bytes) : result abi :=
  if decide (text = []) then Err "EOF"
  else if decide (text = list_byte_of_string "[]")
       then Ok {| Methods := []; Events := [] |}
       else Err "json: cannot unmarshal descriptor".

Definition method_by_id (a : abi) (sigdata : bytes) : result Method.t :=
  if decide (length sigdata < 4) then
    Err ("data too short (" +:+ pretty (length sigdata)
         +:+ " bytes) for abi method lookup")
  else
    match find (λ m, bool_decide (Method.ID m = take 4 sigdata)) (Methods a) with
    | Some m => Ok m
    | None => Err ("no method with id: 0x" +:+ Bytes2Hex (take 4 sigdata))
    end.

Definition event_by_id (a : abi) (topic : Hash) : result Event.t :=
  match find (λ e, bool_decide (Event.ID e = topic)) (Events a) with
  | Some e => Ok e
  | None => Err ("no event with id: 0x" +:+ Bytes2Hex topic)
  end.

(** Big-endian value of a word. *)
Definition be_value (word : bytes) : Z :=
  foldl (λ acc b, (acc * 256 + Z.of_N (Byte.to_N b))%Z) 0%Z word.

(** [toGoType(index, t, output)] for the one-word types. *)
Definition to_go_type (index : nat) (ty : AbiType.t) (output : bytes)
    : result Value :=
  if decide (length output < index + 32) then
    Err ("abi: cannot marshal in to go type: length insufficient "
         +:+ pretty (length output) +:+ " require " +:+ pretty (index + 32))
  else
    let word := take 32 (drop index output) in
    if decide (AbiType.String ty = "uint256") then Ok (VBigInt (be_value word))
    else if decide (AbiType.String ty = "bool") then
      Ok (VBool (bool_decide (be_value word ≠ 0%Z)))
    else if decide (AbiType.String ty = "address") then
      Ok (VAddress (drop 12 word))
    else Err ("abi: unsupported arg type: " +:+ AbiType.String ty).

Fixpoint unpack_words (i : nat) (args : Arguments) (data : bytes)
    : result (list Value) :=
  match args with
  | [] => Ok []
  | arg :: rest =>
      match to_go_type (i * 32) (Argument.Type_ arg) data with
      | Err e => Err e
      | Ok v =>
          match unpack_words (S i) rest data with
          | Err e => Err e
          | Ok vs => Ok (v :: vs)
          end
      end
  end.

Definition unpack_values (arguments : Arguments) (data : bytes)
    : result (list Value) :=
  unpack_words 0 (NonIndexed arguments) data.

Definition unpack (arguments : Arguments) (data : bytes) : result (list Value) :=
  if decide (length data = 0) then
    if decide (length (NonIndexed arguments) ≠ 0) then
      Err "abi: attempting to unmarshal an empty string while arguments are expected"
    else Ok []
  else unpack_values arguments data.

Definition unpack_into_map (arguments : Arguments) (v : gmap string Value)
    (data : bytes) : result (gmap string Value) :=
  if decide (length data = 0) then
    if decide (length (NonIndexed arguments) ≠ 0) then
      Err "abi: attempting to unmarshal an empty string while arguments are expected"
    else Ok v
  else
    match unpack_values arguments data with
    | Err e => Err e
    | Ok values => Ok (store_all (NonIndexed arguments) values v)
    end.

(** Hex digits behind [0x], without the capitals of the checksum. *)
Definition address_hex (a : Address) : string := "0x" +:+ Bytes2Hex a.

Definition decimal_bytes (b : bytes) : string :=
  "[" +:+ String.concat " " (map (λ x, pretty (Byte.to_N x)) b) +:+ "]".

Definition sprintf_v (v : Value) : string :=
  match v with
  | VAddress a => address_hex a
  | VBytes b => decimal_bytes b
  | VString s => s
  | VBool b => if b then "true" else "false"
  | VBigInt n => pretty n
  | VFixedBytes b => decimal_bytes b
  end.

#[export] Instance geth : GoEthereum := {|
  ABI := abi;
  JSON := json;
  MethodById := method_by_id;
  EventByID := event_by_id;
  Unpack := unpack;
  UnpackIntoMap := unpack_into_map;
  AddressHex := address_hex;
  Sprintf_v := sprintf_v
|}.

(** [common.Hex2Bytes], for writing test data. *)
Fixpoint index_in (c : ascii) (table : string) (i : N) : N :=
  match table with
  | EmptyString => 0%N
  | String d rest => if Ascii.eqb c d then i else index_in c rest (N.succ i)
  end.

Fixpoint Hex2Bytes (text : string) : bytes :=
  match text with
  | String hi (String lo rest) =>
      default Byte.x00
        (Byte.of_N (index_in hi hextable 0 * 16 + index_in lo hextable 0))
        :: Hex2Bytes rest
  | _ => []
  end.

End Fixture.

(** ** Test data *)
Module Samples.
Import Fixture.

Definition uint256 : AbiType.t := AbiType.mk "uint256".
Definition address : AbiType.t := AbiType.mk "address".

(** [burn(uint256)], with the name the descriptor gives its parameter. *)
Definition burn (param : string) : Method.t :=
  {| Method.Name := "burn"; Method.Sig := "burn(uint256)";
     Method.ID := Hex2Bytes "42966c68";
     Method.Inputs := [Argument.mk param uint256 false] |}.

(** [pause()] *)
Definition pause : Method.t :=
  {| Method.Name := "pause"; Method.Sig := "pause()";
     Method.ID := Hex2Bytes "8456cb59"; Method.Inputs := [] |}.

(** [Transfer(address indexed from, address indexed to, uint256 value)] *)
Definition Transfer : Event.t :=
  {| Event.Name := "Transfer"; Event.Sig := "Transfer(address,address,uint256)";
     Event.ID :=
       Hex2Bytes "ddf252ad1be2c89b69c2b068fc378daa952ba7f163c4a11628f55a4df523b3ef";
     Event.Inputs := [Argument.mk "from" address true;
                      Argument.mk "to" address true;
                      Argument.mk "value" uint256 false] |}.

Definition TokenA : ContractInfo :=
  {| ci_Name := "TokenA";
     ci_ABI := {| Methods := [burn "amount"; pause]; Events := [Transfer] |} |}.

Definition TokenB : ContractInfo :=
  {| ci_Name := "TokenB";
     ci_ABI := {| Methods := [burn "value"]; Events := [] |} |}.

(** The registry after loading TokenA, then TokenB. *)
Definition registry : ContractABIs :=
  <["TokenB" := TokenB]> (<["TokenA" := TokenA]> ∅).

(** [burn(1000)] *)
Definition burn_call : bytes :=
  Hex2Bytes "42966c68" ++ Hex2Bytes "00000000000000000000000000000000000000000000000000000000000003e8".

(** [burn] with a single byte where the 32-byte argument should be. *)
Definition burn_truncated : bytes := Hex2Bytes "42966c68" ++ [Byte.x00].

Definition pause_call : bytes := Hex2Bytes "8456cb59".

(** The topic of an indexed [from] address. *)
Definition from_topic : Hash :=
  Hex2Bytes "000000000000000000000000000000000000000000000000000000000000dead".

(** The data payload of a [Transfer] of 500. *)
Definition value_500 : bytes := Hex2Bytes "00000000000000000000000000000000000000000000000000000000000001f4".

(** A file system with one (empty) descriptor and one broken file. *)
Definition disk (path : string) : result bytes :=
  if decide (path = "abi/empty.json") then Ok (list_byte_of_string "[]")
  else if decide (path = "abi/broken.json") then Ok (list_byte_of_string "[{")
  else Err ("open " +:+ path +:+ ": no such file or directory").

Definition contracts_missing : list ContractConfig.t :=
  [ContractConfig.mk "abi/empty.json" "Empty";
   ContractConfig.mk "abi/token.json" "Token"].

End Samples.

(** ** Descriptor files and further logs *)
Module Scenarios.
Import Fixture Samples.

(** The topic of an indexed [to] address. *)
Definition to_topic : Hash :=
  Hex2Bytes "000000000000000000000000000000000000000000000000000000000000beef".

(** [OwnershipTransferred(address indexed previousOwner,
    address indexed newOwner)]: every input is in the topics. *)
Definition OwnershipTransferred : Event.t :=
  {| Event.Name := "OwnershipTransferred";
     Event.Sig := "OwnershipTransferred(address,address)";
     Event.ID :=
       Hex2Bytes "8be0079c531659141344cd1fd0a4f28419497f9722a3daafe3b4186f6b6457e0";
     Event.Inputs := [Argument.mk "previousOwner" address true;
                      Argument.mk "newOwner" address true] |}.

Definition Ownable : @ContractInfo geth :=
  {| ci_Name := "Ownable";
     ci_ABI := {| Methods := []; Events := [OwnershipTransferred] |} |}.

(** [odd(uint256 indexed a, uint256 b)]: a descriptor that flags a method
    input as indexed. *)
Definition odd : Method.t :=
  {| Method.Name := "odd"; Method.Sig := "odd(uint256,uint256)";
     Method.ID := Hex2Bytes "c1fee3dc";
     Method.Inputs := [Argument.mk "a" uint256 true;
                       Argument.mk "b" uint256 false] |}.

Definition Odd : @ContractInfo geth :=
  {| ci_Name := "Odd"; ci_ABI := {| Methods := [odd]; Events := [] |} |}.

(** The selector of [odd] followed by the words 7 and 9. *)
Definition odd_call : bytes :=
  Hex2Bytes "c1fee3dc"
  ++ Hex2Bytes "0000000000000000000000000000000000000000000000000000000000000007"
  ++ Hex2Bytes "0000000000000000000000000000000000000000000000000000000000000009".

(** The text with every ['] replaced by a double quote. *)
Fixpoint double_quoted (text : string) : string :=
  match text with
  | EmptyString => EmptyString
  | String c rest =>
      String (if Ascii.eqb c "'"%char then ascii_of_nat 34 else c)
        (double_quoted rest)
  end.

(** The descriptor file of a contract with the one method [pause()]. *)
Definition pausable_json : bytes :=
  list_byte_of_string
    (double_quoted "[{'type':'function','name':'pause','inputs':[]}]").

(** [abi.JSON] that also parses [pausable_json]. *)
Definition json (text : bytes) : result abi :=
  if decide (text = pausable_json)
  then Ok {| Methods := [pause]; Events := [] |}
  else Fixture.json text.

(** The go-ethereum of [Fixture] with this parser. *)
#[export] Instance geth_files : GoEthereum := {|
  ABI := abi;
  JSON := json;
  MethodById := method_by_id;
  EventByID := event_by_id;
  Unpack := unpack;
  UnpackIntoMap := unpack_into_map;
  AddressHex := address_hex;
  Sprintf_v := sprintf_v
|}.

(** A file system with the descriptor of the pausable contract, an empty
    descriptor and a file that is not a descriptor. *)
Definition files (path : string) : result bytes :=
  if decide (path = "abi/pausable.json") then Ok pausable_json
  else if decide (path = "abi/empty.json") then Ok (list_byte_of_string "[]")
  else if decide (path = "abi/broken.json") then Ok (list_byte_of_string "[{")
  else Err ("open " +:+ path +:+ ": no such file or directory").

Definition pausable : ContractConfig.t := ContractConfig.mk "abi/pausable.json" "Vault".
Definition empty : ContractConfig.t := ContractConfig.mk "abi/empty.json" "Empty".
Definition broken : ContractConfig.t := ContractConfig.mk "abi/broken.json" "Broken".
Definition missing : ContractConfig.t := ContractConfig.mk "abi/none.json" "None".

(** A contract that takes the name of [pausable] with the empty descriptor. *)
Definition shadow : ContractConfig.t := ContractConfig.mk "abi/empty.json" "Vault".

Definition Vault : @ContractInfo geth_files :=
  {| ci_Name := "Vault"; ci_ABI := {| Methods := [pause]; Events := [] |} |}.

Definition Empty : @ContractInfo geth_files :=
  {| ci_Name := "Empty"; ci_ABI := {| Methods := []; Events := [] |} |}.

End Scenarios.

(** * Properties *)

Local Open Scope nat_scope.
Local Open Scope list_scope.

(** ** Hex encoding *)

Lemma hex_of_byte_digits v :
  lower_hex (hexdigit (N.shiftr (Byte.to_N v) 4))
  ∧ lower_hex (hexdigit (N.land (Byte.to_N v) 15)).
Proof.
  unfold lower_hex. destruct v; split; reflexivity.
Qed.

Lemma Bytes2Hex_cons v d : Bytes2Hex (v :: d) = hex_of_byte v (Bytes2Hex d).
Proof. reflexivity. Qed.

Lemma Bytes2Hex_length d : String.length (Bytes2Hex d) = 2 * length d.
Proof.
  induction d as [|v d IH]; [done|].
  rewrite Bytes2Hex_cons. unfold hex_of_byte. simpl. lia.
Qed.

Lemma Bytes2Hex_lower d :
  Forall lower_hex (list_ascii_of_string (Bytes2Hex d)).
Proof.
  induction d as [|v d IH]; [constructor|].
  rewrite Bytes2Hex_cons. unfold hex_of_byte. simpl.
  destruct (hex_of_byte_digits v). by repeat constructor.
Qed.

Lemma Bytes2Hex_no_0x d : String.prefix "0x" (Bytes2Hex d) = false.
Proof.
  destruct d as [|v d]; [done|].
  rewrite Bytes2Hex_cons. unfold hex_of_byte.
  generalize (Bytes2Hex d). intros rest.
  destruct v; reflexivity.
Qed.

(** ** The parsers, for every go-ethereum *)

Section Parsers.
Context {G : GoEthereum}.
Implicit Types (visited : list ContractInfo) (data : bytes)
  (topics : list Hash) (declared : Arguments).

(** *** Method path *)

Lemma tx_scan_matched visited data :
  tx_scan visited data =
    match matched_method visited data with
    | Some method => tx_matched method data
    | None => method_not_found
    end.
Proof.
  unfold matched_method.
  induction visited as [|contractInfo rest IH]; simpl; [done|].
  by destruct (MethodById _ _).
Qed.

Lemma ParseTransactionData_matched visited data method :
  4 ≤ length data →
  matched_method visited data = Some method →
  ParseTransactionData visited data = tx_matched method data.
Proof.
  intros Hlen Hm. unfold ParseTransactionData.
  destruct (decide (length data < 4)); [lia|].
  by rewrite tx_scan_matched, Hm.
Qed.

Lemma tx_parameters_zip declared : ∀ i (inputs : list Value),
  tx_parameters i declared inputs =
    zip_with (λ input value,
                {| pp_Name := Argument.Name input;
                   pp_Type := AbiType.String (Argument.Type_ input);
                   pp_Value := formatValue value;
                   pp_Indexed := false |})
             declared (drop i inputs).
Proof.
  induction declared as [|input rest IH]; intros i inputs; simpl; [done|].
  destruct (inputs !! i) as [value|] eqn:Hi.
  - rewrite (drop_S _ _ _ Hi). simpl. by rewrite IH.
  - rewrite IH. apply lookup_ge_None in Hi.
    rewrite !drop_ge by lia. by destruct rest.
Qed.

Lemma NonIndexed_all declared :
  Forall (λ arg, Argument.Indexed arg = false) declared →
  NonIndexed declared = declared.
Proof.
  unfold NonIndexed. induction 1 as [|arg rest Harg _ IH]; [done|].
  rewrite filter_cons_True by done. by rewrite IH.
Qed.

(** C9: call data shorter than a selector is answered with the
    too-short error and an otherwise empty record, whatever the registry
    holds and whatever the library would find or decode. *)
Theorem ParseTransactionData_too_short visited data :
  length data < 4 →
  ParseTransactionData visited data =
    {| MethodName := ""; MethodSignature := ""; Parameters := [];
       Error := "transaction data too short" |}.
Proof.
  intros Hshort. unfold ParseTransactionData.
  by destruct (decide (length data < 4)).
Qed.

(** C4: when the selector of the call data matches a loaded method and
    unpacking the remaining bytes fails, the record carries the method's
    name and signature, a non-empty error, and no parameter. *)
Theorem ParseTransactionData_unpack_failure visited data method err :
  4 ≤ length data →
  matched_method visited data = Some method →
  Unpack (Method.Inputs method) (drop 4 data) = Err err →
  let r := ParseTransactionData visited data in
  MethodName r = Method.Name method
  ∧ MethodSignature r = Method.Sig method
  ∧ Error r = "failed to unpack inputs: " +:+ err
  ∧ Error r ≠ ""
  ∧ Parameters r = [].
Proof.
  intros Hlen Hm Hu. simpl.
  rewrite (ParseTransactionData_matched _ _ _ Hlen Hm).
  unfold tx_matched. rewrite Hu. simpl. by repeat split.
Qed.

(** C6 (amended): when the method matches, none of its declared inputs
    is flagged indexed and its parameters decode, the record holds one
    parameter per declared input, in declaration order, each with the
    input's name and type and the formatted decoded value, and the error
    is empty. *)
Theorem ParseTransactionData_success `{!GoEthereumSpec G}
    visited data method inputs :
  4 ≤ length data →
  matched_method visited data = Some method →
  Forall (λ arg, Argument.Indexed arg = false) (Method.Inputs method) →
  Unpack (Method.Inputs method) (drop 4 data) = Ok inputs →
  let r := ParseTransactionData visited data in
  Error r = ""
  ∧ MethodName r = Method.Name method
  ∧ MethodSignature r = Method.Sig method
  ∧ length (Parameters r) = length (Method.Inputs method)
  ∧ Parameters r =
      zip_with (λ input value,
                  {| pp_Name := Argument.Name input;
                     pp_Type := AbiType.String (Argument.Type_ input);
                     pp_Value := formatValue value;
                     pp_Indexed := false |})
               (Method.Inputs method) inputs.
Proof.
  intros Hlen Hm Hplain Hu. simpl.
  rewrite (ParseTransactionData_matched _ _ _ Hlen Hm).
  unfold tx_matched. rewrite Hu. simpl.
  rewrite tx_parameters_zip, drop_0.
  repeat split; try done.
  rewrite length_zip_with.
  pose proof (Unpack_length _ _ _ Hu) as Hn.
  rewrite (NonIndexed_all _ Hplain) in Hn. lia.
Qed.

(** C7 (amended): the formatter renders an address through its
    checksummed [Hex] form, a byte slice ([[]byte]) as lowercase hex
    digits, two per byte and without a [0x] prefix, a string as itself,
    and any other value, a fixed-size byte array ([[N]byte]) included,
    through the default [%v] formatting. *)
Theorem formatValue_cases :
  (∀ a, formatValue (VAddress a) = AddressHex a)
  ∧ (∀ b, formatValue (VBytes b) = Bytes2Hex b
          ∧ String.length (formatValue (VBytes b)) = 2 * length b
          ∧ Forall lower_hex (list_ascii_of_string (formatValue (VBytes b)))
          ∧ String.prefix "0x" (formatValue (VBytes b)) = false)
  ∧ (∀ s, formatValue (VString s) = s)
  ∧ (∀ v, match v with
          | VAddress _ | VBytes _ | VString _ => True
          | VBool _ | VBigInt _ | VFixedBytes _ => formatValue v = Sprintf_v v
          end).
Proof.
  split; [done|]. split; [|split; [done|]].
  - intros b. simpl.
    auto using Bytes2Hex_length, Bytes2Hex_lower, Bytes2Hex_no_0x.
  - by intros [].
Qed.

(** *** Event path *)

Lemma event_scan_matched visited eventID topics data :
  event_scan visited eventID topics data =
    match matched_event visited eventID with
    | Some event => event_matched event topics data
    | None => event_not_found
    end.
Proof.
  unfold matched_event.
  induction visited as [|contractInfo rest IH]; simpl; [done|].
  by destruct (EventByID _ _).
Qed.

Lemma ParseEventLogs_matched visited eventID topics data event :
  matched_event visited eventID = Some event →
  ParseEventLogs visited (eventID :: topics) data =
    event_matched event (eventID :: topics) data.
Proof. intros Hm. simpl. by rewrite event_scan_matched, Hm. Qed.

(** What the event path returns when the data payload of a matched event
    does not unpack: the name, the error, and nothing else. *)
Lemma ParseEventLogs_unpack_failure visited eventID topics data event err :
  matched_event visited eventID = Some event →
  unpack_non_indexed event data ∅ = Err err →
  ParseEventLogs visited (eventID :: topics) data =
    {| MethodName := Event.Name event;
       MethodSignature := "";
       Parameters := [];
       Error := "failed to unpack event data: " +:+ err |}.
Proof.
  intros Hm Hu. rewrite (ParseEventLogs_matched _ _ _ _ _ Hm).
  unfold event_matched. by rewrite Hu.
Qed.

(** *** Parameters and error *)




(** *** Indexed parameters *)

Lemma store_all_lookup_other args : ∀ (values : list Value) v name,
  name ∉ Argument.Name <$> args →
  store_all args values v !! name = v !! name.
Proof.
  unfold store_all.
  induction args as [|arg rest IH]; intros values v name Hname; [done|].
  destruct values as [|value values]; [done|]. simpl.
  rewrite fmap_cons, not_elem_of_cons in Hname. destruct Hname as [Hne Hrest].
  rewrite IH by done. by rewrite lookup_insert_ne.
Qed.

Lemma store_indexed_lookup_other inputs topics : ∀ topicIndex eventData name,
  name ∉ Argument.Name <$> inputs →
  store_indexed inputs topics topicIndex eventData !! name = eventData !! name.
Proof.
  induction inputs as [|input rest IH]; intros topicIndex eventData name Hname;
    [done|].
  rewrite fmap_cons, not_elem_of_cons in Hname. destruct Hname as [Hne Hrest].
  simpl. destruct (Argument.Indexed input), (topics !! topicIndex);
    rewrite IH by done; try done.
  by rewrite lookup_insert_ne.
Qed.

Lemma names_distinct (inputs : Arguments) a b :
  NoDup (Argument.Name <$> inputs) →
  a ∈ inputs → b ∈ inputs → Argument.Name a = Argument.Name b → a = b.
Proof.
  induction inputs as [|input rest IH]; intros Hnd Ha Hb Hab.
  { by apply elem_of_nil in Ha. }
  rewrite fmap_cons in Hnd. apply NoDup_cons in Hnd as [Hfresh Hnd].
  apply elem_of_cons in Ha as [->|Ha]; apply elem_of_cons in Hb as [->|Hb].
  - done.
  - destruct Hfresh. rewrite Hab. by apply list_elem_of_fmap_2.
  - destruct Hfresh. rewrite <- Hab. by apply list_elem_of_fmap_2.
  - by apply IH.
Qed.

(** After the non-indexed step no indexed parameter has an entry. *)
Lemma unpack_non_indexed_keys `{!GoEthereumSpec G} event data eventData arg :
  NoDup (Argument.Name <$> Event.Inputs event) →
  unpack_non_indexed event data ∅ = Ok eventData →
  arg ∈ Event.Inputs event → Argument.Indexed arg = true →
  eventData !! Argument.Name arg = None.
Proof.
  intros Hnd Hu Harg Hidx. unfold unpack_non_indexed in Hu.
  assert (eventData = ∅ ∨ ∃ values,
            eventData = store_all (NonIndexed (Event.Inputs event)) values ∅)
    as [->|[values ->]].
  { destruct (decide (0 < length data)); [|left; congruence].
    destruct (decide (0 < length (NonIndexed (Event.Inputs event))));
      [|left; congruence].
    apply UnpackIntoMap_stores in Hu as (values & _ & ->). eauto. }
  - done.
  - rewrite store_all_lookup_other; [done|].
    intros (other & Hname & Hother)%list_elem_of_fmap.
    apply list_elem_of_filter in Hother as [Hplain Hother].
    assert (arg = other) as -> by eauto using names_distinct.
    congruence.
Qed.

Lemma indexed_parameters_of_topics inputs topics :
  ∀ topicIndex (eventData : gmap string Value),
  NoDup (Argument.Name <$> inputs) →
  (∀ arg, arg ∈ inputs → Argument.Indexed arg = true →
          eventData !! Argument.Name arg = None) →
  filter (λ p, pp_Indexed p = true)
    (event_parameters inputs (store_indexed inputs topics topicIndex eventData)) =
  zip_with (λ input topic,
              {| pp_Name := Argument.Name input;
                 pp_Type := AbiType.String (Argument.Type_ input);
                 pp_Value := HashHex topic;
                 pp_Indexed := true |})
           (IndexedArgs inputs) (drop topicIndex topics).
Proof.
  unfold IndexedArgs.
  induction inputs as [|input rest IH]; intros topicIndex eventData Hnd Hfree;
    [done|].
  rewrite fmap_cons in Hnd. apply NoDup_cons in Hnd as [Hfresh Hnd].
  simpl event_parameters. simpl store_indexed.
  destruct (Argument.Indexed input) eqn:Hidx.
  - rewrite filter_cons_True by done.
    destruct (topics !! topicIndex) as [topic|] eqn:Htopic.
    + rewrite store_indexed_lookup_other, lookup_insert_eq by done.
      rewrite filter_cons_True by (simpl; done).
      rewrite (drop_S _ _ _ Htopic). simpl. f_equal.
      apply IH; [done|]. intros arg Harg Hargidx.
      rewrite lookup_insert_ne.
      * apply Hfree; [by right | done].
      * intros Heq. apply Hfresh. rewrite Heq. by apply list_elem_of_fmap_2.
    + rewrite store_indexed_lookup_other by done.
      rewrite (Hfree input) by (done || by left).
      apply lookup_ge_None in Htopic.
      rewrite IH; [|done|intros; apply Hfree; [by right|done]].
      rewrite drop_ge by lia.
      by destruct (filter _ rest).
  - rewrite filter_cons_False by congruence.
    assert (store_indexed rest topics topicIndex eventData !! Argument.Name input
            = eventData !! Argument.Name input) as Hsame.
    { by apply store_indexed_lookup_other. }
    simpl. rewrite Hsame.
    assert (∀ arg, arg ∈ rest → Argument.Indexed arg = true →
                   eventData !! Argument.Name arg = None) as Hrest.
    { intros; apply Hfree; [by right|done]. }
    destruct (eventData !! Argument.Name input).
    + rewrite filter_cons_False by (simpl; congruence). by apply IH.
    + by apply IH.
Qed.

(** C5 (amended): a matched event with pairwise distinct parameter names
    whose data payload is absent or unpacks, and whose log has fewer
    topics after the first than the event has indexed parameters, gives a
    record without error whose indexed parameters are those that have a
    topic, in declaration order, each with its topic in hex. *)
Theorem ParseEventLogs_indexed_shortfall `{!GoEthereumSpec G}
    visited eventID topics data event eventData :
  matched_event visited eventID = Some event →
  NoDup (Argument.Name <$> Event.Inputs event) →
  unpack_non_indexed event data ∅ = Ok eventData →
  length topics < length (IndexedArgs (Event.Inputs event)) →
  let r := ParseEventLogs visited (eventID :: topics) data in
  Error r = ""
  ∧ MethodName r = Event.Name event
  ∧ MethodSignature r = Event.Sig event
  ∧ length (filter (λ p, pp_Indexed p = true) (Parameters r)) = length topics
  ∧ filter (λ p, pp_Indexed p = true) (Parameters r) =
      zip_with (λ input topic,
                  {| pp_Name := Argument.Name input;
                     pp_Type := AbiType.String (Argument.Type_ input);
                     pp_Value := HashHex topic;
                     pp_Indexed := true |})
               (IndexedArgs (Event.Inputs event)) topics.
Proof.
  intros Hm Hnd Hu Hshort. cbv zeta.
  rewrite (ParseEventLogs_matched _ _ _ _ _ Hm).
  unfold event_matched. rewrite Hu. simpl Error. simpl MethodName.
  simpl MethodSignature. simpl Parameters.
  assert (filter (λ p, pp_Indexed p = true)
            (event_parameters (Event.Inputs event)
               (store_indexed (Event.Inputs event) (eventID :: topics) 1 eventData))
          = zip_with (λ input topic,
                  {| pp_Name := Argument.Name input;
                     pp_Type := AbiType.String (Argument.Type_ input);
                     pp_Value := HashHex topic;
                     pp_Indexed := true |})
               (IndexedArgs (Event.Inputs event)) topics) as ->.
  { rewrite indexed_parameters_of_topics; [done|done|].
    intros arg Harg Hidx. by eapply unpack_non_indexed_keys. }
  repeat split; try done.
  rewrite length_zip_with. lia.
Qed.

(** *** Visiting order *)

Lemma first_match_Some {A B} (lookup : A → result B) l b :
  first_match lookup l = Some b → ∃ x, x ∈ l ∧ lookup x = Ok b.
Proof.
  induction l as [|x rest IH]; simpl; [done|].
  destruct (lookup x) as [b'|] eqn:Hx.
  - intros [= ->]. exists x. split; [by left|done].
  - intros (y & Hy & Hb)%IH. exists y. split; [by right|done].
Qed.

Lemma first_match_None {A B} (lookup : A → result B) l x b :
  first_match lookup l = None → x ∈ l → lookup x ≠ Ok b.
Proof.
  induction l as [|y rest IH]; simpl; intros Hnone Hx.
  { by apply elem_of_nil in Hx. }
  destruct (lookup y) as [b'|] eqn:Hy; [done|].
  apply elem_of_cons in Hx as [->|Hx]; [congruence | by apply IH].
Qed.

(** The scan returns at the first hit of the visiting order. *)
Lemma first_match_first {A B} (lookup : A → result B) pre x post b :
  Forall (λ y, ∀ b', lookup y ≠ Ok b') pre →
  lookup x = Ok b →
  first_match lookup (pre ++ x :: post) = Some b.
Proof.
  intros Hpre Hx. induction Hpre as [|y pre Hy _ IH]; simpl.
  - by rewrite Hx.
  - destruct (lookup y) as [b'|] eqn:Hy'; [by destruct (Hy b')|done].
Qed.

(** Two visiting orders of the same entries settle on the same member
    when the entries that have one agree on it. *)
Lemma first_match_perm {A B} (lookup : A → result B) l1 l2 :
  l1 ≡ₚ l2 →
  (∀ x y b c, x ∈ l1 → y ∈ l1 → lookup x = Ok b → lookup y = Ok c → b = c) →
  first_match lookup l1 = first_match lookup l2.
Proof.
  intros Hperm Hagree.
  destruct (first_match lookup l1) as [b|] eqn:H1,
           (first_match lookup l2) as [c|] eqn:H2; [| | |done].
  - apply first_match_Some in H1 as (x & Hx & Hb).
    apply first_match_Some in H2 as (y & Hy & Hc).
    rewrite <- Hperm in Hy. f_equal. eauto.
  - apply first_match_Some in H1 as (x & Hx & Hb).
    rewrite Hperm in Hx. by destruct (first_match_None _ _ _ b H2 Hx).
  - apply first_match_Some in H2 as (y & Hy & Hc).
    rewrite <- Hperm in Hy. by destruct (first_match_None _ _ _ c H1 Hy).
Qed.

Lemma range_over_perm contractABIs visited visited' :
  range_over contractABIs visited → range_over contractABIs visited' →
  visited ≡ₚ visited'.
Proof. unfold range_over. by intros -> ->. Qed.

(** A registry of two entries can be visited in both orders. *)
Lemma range_over_two (n1 n2 : string) (c1 c2 : ContractInfo) :
  n1 ≠ n2 →
  range_over (<[n2 := c2]> (<[n1 := c1]> ∅)) [c1; c2]
  ∧ range_over (<[n2 := c2]> (<[n1 := c1]> ∅)) [c2; c1].
Proof.
  intros Hne. unfold range_over, ContractABIs in *.
  assert ((map_to_list (<[n2 := c2]> (<[n1 := c1]> (∅ : gmap string ContractInfo)))).*2
          ≡ₚ [c2; c1]) as Hperm.
  { rewrite map_to_list_insert
      by (by rewrite lookup_insert_ne, lookup_empty).
    rewrite map_to_list_insert by apply lookup_empty.
    by rewrite map_to_list_empty. }
  split; rewrite Hperm; [apply perm_swap | done].
Qed.

(** The entries a [range] visits are the entries of the registry. *)
Lemma range_over_loaded contractABIs visited contractInfo :
  range_over contractABIs visited →
  contractInfo ∈ visited ↔ ∃ name, contractABIs !! name = Some contractInfo.
Proof.
  unfold range_over, ContractABIs in *. intros ->.
  rewrite list_elem_of_fmap. split.
  - intros ([name ci] & -> & Hin). exists name.
    by apply elem_of_map_to_list in Hin.
  - intros [name Hname]. exists (name, contractInfo). split; [done|].
    by apply elem_of_map_to_list.
Qed.

(** C2 (amended): resolution examines the descriptors in the order in
    which the [range] over the registry visits them and returns on the
    first one that contains a matching member: the record of either parser
    is the one decoded with the member of the first visited descriptor
    that has it.  Two resolutions of the same input over the same registry
    give the same record when the loaded descriptors that contain a
    matching member agree on it, in particular when at most one does. *)
Theorem resolution_follows_visiting_order
    contractABIs visited visited' data eventID topics payload :
  range_over contractABIs visited →
  range_over contractABIs visited' →
  (∀ pre contractInfo post method,
      visited = pre ++ contractInfo :: post →
      Forall (λ c, ∀ m, MethodById (ci_ABI c) (take 4 data) ≠ Ok m) pre →
      MethodById (ci_ABI contractInfo) (take 4 data) = Ok method →
      4 ≤ length data →
      ParseTransactionData visited data = tx_matched method data)
  ∧ (∀ pre contractInfo post event,
      visited = pre ++ contractInfo :: post →
      Forall (λ c, ∀ e, EventByID (ci_ABI c) eventID ≠ Ok e) pre →
      EventByID (ci_ABI contractInfo) eventID = Ok event →
      ParseEventLogs visited (eventID :: topics) payload
      = event_matched event (eventID :: topics) payload)
  ∧ ((∀ n n' c c' m m',
        contractABIs !! n = Some c → contractABIs !! n' = Some c' →
        MethodById (ci_ABI c) (take 4 data) = Ok m →
        MethodById (ci_ABI c') (take 4 data) = Ok m' → m = m') →
     ParseTransactionData visited data = ParseTransactionData visited' data)
  ∧ ((∀ n n' c c' e e',
        contractABIs !! n = Some c → contractABIs !! n' = Some c' →
        EventByID (ci_ABI c) eventID = Ok e →
        EventByID (ci_ABI c') eventID = Ok e' → e = e') →
     ParseEventLogs visited (eventID :: topics) payload =
       ParseEventLogs visited' (eventID :: topics) payload).
Proof.
  intros Hv Hv'. pose proof (range_over_perm _ _ _ Hv Hv') as Hperm.
  split; [|split; [|split]].
  - intros pre ci post method -> Hpre Hci Hlen.
    apply ParseTransactionData_matched; [done|].
    unfold matched_method. by apply first_match_first.
  - intros pre ci post event -> Hpre Hci.
    apply ParseEventLogs_matched.
    unfold matched_event. by apply first_match_first.
  - intros Hagree. unfold ParseTransactionData.
    destruct (decide (length data < 4)) as [|_]; [done|].
    rewrite !tx_scan_matched. unfold matched_method.
    rewrite (first_match_perm _ _ _ Hperm); [done|].
    intros x y b c [k Hk]%(range_over_loaded _ _ _ Hv)
      [k' Hk']%(range_over_loaded _ _ _ Hv). eauto.
  - intros Hagree. simpl. rewrite !event_scan_matched. unfold matched_event.
    rewrite (first_match_perm _ _ _ Hperm); [done|].
    intros x y b c [k Hk]%(range_over_loaded _ _ _ Hv)
      [k' Hk']%(range_over_loaded _ _ _ Hv). eauto.
Qed.

(** *** Loading *)

Lemma load_from_fails ReadFile contracts : ∀ contractABIs,
  Exists (load_fails ReadFile) contracts →
  ∃ err, load_from ReadFile contracts contractABIs = (None, Some err).
Proof.
  induction contracts as [|contract rest IH]; intros contractABIs Hex.
  { by apply Exists_nil in Hex. }
  simpl. unfold load_fails in Hex.
  destruct (ReadFile (ContractConfig.Path contract)) as [abiBytes|err] eqn:Hread;
    [|eauto].
  destruct (JSON abiBytes) as [contractABI|err] eqn:Hjson; [|eauto].
  apply IH. apply Exists_cons in Hex as [Hhere|Hrest]; [|done].
  by rewrite Hread, Hjson in Hhere.
Qed.

(** When every file is read and parsed the registry is returned, without
    error. *)
Lemma load_from_succeeds ReadFile contracts : ∀ contractABIs,
  Forall (λ contract, ¬ load_fails ReadFile contract) contracts →
  ∃ loaded, load_from ReadFile contracts contractABIs = (Some loaded, None).
Proof.
  induction contracts as [|contract rest IH]; intros contractABIs Hall;
    simpl; [eauto|].
  apply Forall_cons in Hall as [Hhere Hrest]. unfold load_fails in Hhere.
  destruct (ReadFile (ContractConfig.Path contract)) as [abiBytes|err];
    [|by destruct Hhere].
  destruct (JSON abiBytes) as [contractABI|err]; [|by destruct Hhere].
  by apply IH.
Qed.

(** C8: if any descriptor file of the list cannot be read or parsed,
    [LoadContractABIs] returns an error and a nil registry, never the
    descriptors loaded before the failure. *)
Theorem LoadContractABIs_all_or_nothing ReadFile contracts :
  Exists (load_fails ReadFile) contracts →
  ∃ err, LoadContractABIs ReadFile contracts = (None, Some err).
Proof. apply load_from_fails. Qed.

End Parsers.

(** ** The parsers on the test data *)

Section OnFixture.
Import Fixture Samples.

Lemma unpack_words_length args : ∀ i data values,
  unpack_words i args data = Ok values → length values = length args.
Proof.
  induction args as [|arg rest IH]; intros i data values; simpl.
  - by intros [= <-].
  - destruct (to_go_type _ _ _) as [v|]; [|done].
    destruct (unpack_words (S i) rest data) as [vs|] eqn:Hrest; [|done].
    intros [= <-]. simpl. f_equal. by eapply IH.
Qed.

Lemma unpack_length arguments data values :
  unpack arguments data = Ok values →
  length values = length (NonIndexed arguments).
Proof.
  unfold unpack, unpack_values.
  destruct (decide (length data = 0)).
  - destruct (decide (length (NonIndexed arguments) ≠ 0)) as [|Hz]; [done|].
    intros [= <-]. simpl. lia.
  - apply unpack_words_length.
Qed.

Lemma unpack_into_map_stores arguments v data v' :
  unpack_into_map arguments v data = Ok v' →
  ∃ values, length values = length (NonIndexed arguments)
            ∧ v' = store_all (NonIndexed arguments) values v.
Proof.
  unfold unpack_into_map, unpack_values.
  destruct (decide (length data = 0)).
  - destruct (decide (length (NonIndexed arguments) ≠ 0)) as [|Hz]; [done|].
    intros [= <-]. exists [].
    destruct (NonIndexed arguments); [done | simpl in Hz; lia].
  - destruct (unpack_words 0 _ data) as [values|] eqn:Hw; [|done].
    intros [= <-]. exists values. split; [|done].
    by eapply unpack_words_length.
Qed.

#[local] Instance geth_spec : GoEthereumSpec geth.
Proof. split; [apply unpack_length | apply unpack_into_map_stores]. Qed.

(** C1: evaluation at a matched [Transfer] log whose one-byte payload does
    not unpack.  The record has the event's name and the error, and its
    signature field is empty although the event has a signature. *)
Theorem ParseEventLogs_unpack_failure_has_no_signature :
  let r := ParseEventLogs [TokenA; TokenB] [Event.ID Transfer] [Byte.x00] in
  matched_event [TokenA; TokenB] (Event.ID Transfer) = Some Transfer
  ∧ unpack_non_indexed Transfer [Byte.x00] ∅ =
      Err "abi: cannot marshal in to go type: length insufficient 1 require 32"
  ∧ MethodName r = "Transfer"
  ∧ Error r ≠ ""
  ∧ MethodSignature r = ""
  ∧ Event.Sig Transfer = "Transfer(address,address,uint256)".
Proof.
  cbv zeta.
  assert (matched_event [TokenA; TokenB] (Event.ID Transfer) = Some Transfer)
    as Hm by reflexivity.
  assert (unpack_non_indexed Transfer [Byte.x00] ∅ =
      Err "abi: cannot marshal in to go type: length insufficient 1 require 32")
    as Hu by reflexivity.
  rewrite (ParseEventLogs_unpack_failure _ _ _ _ _ _ Hm Hu).
  by repeat split.
Qed.

(** C2, as stated, fails: the registry holding TokenA and TokenB can be
    visited in both orders, and [burn(1000)] is then decoded with the
    descriptor of TokenA in one and of TokenB in the other. *)
Lemma resolution_depends_on_visiting_order :
  range_over registry [TokenA; TokenB]
  ∧ range_over registry [TokenB; TokenA]
  ∧ pp_Name <$> Parameters (ParseTransactionData [TokenA; TokenB] burn_call)
    = ["amount"]
  ∧ pp_Name <$> Parameters (ParseTransactionData [TokenB; TokenA] burn_call)
    = ["value"]
  ∧ ParseTransactionData [TokenA; TokenB] burn_call
    ≠ ParseTransactionData [TokenB; TokenA] burn_call.
Proof.
  assert ("TokenA" ≠ "TokenB") as Hne by done.
  destruct (range_over_two "TokenA" "TokenB" TokenA TokenB Hne) as [HAB HBA].
  assert (pp_Name <$> Parameters (ParseTransactionData [TokenA; TokenB] burn_call)
          = ["amount"]) as HA by reflexivity.
  assert (pp_Name <$> Parameters (ParseTransactionData [TokenB; TokenA] burn_call)
          = ["value"]) as HB by reflexivity.
  split; [done|]. split; [done|]. split; [done|]. split; [done|].
  intros Heq. rewrite Heq, HB in HA. discriminate HA.
Qed.

(** C7, as stated, fails: a fixed-size byte array, the decoding of a
    [bytesN] parameter, is not a [[]byte]; it takes the default branch and
    is printed as a list of decimal numbers, not as hex digits. *)
Lemma fixed_bytes_are_not_hex :
  formatValue (VFixedBytes [Byte.xde; Byte.xad]) = "[222 173]"
  ∧ Bytes2Hex [Byte.xde; Byte.xad] = "dead"
  ∧ ¬ Forall lower_hex
        (list_ascii_of_string (formatValue (VFixedBytes [Byte.xde; Byte.xad]))).
Proof.
  split; [reflexivity|]. split; [reflexivity|].
  intros Hall. apply Forall_cons in Hall as [Hfirst _]. discriminate Hfirst.
Qed.


(** C5, as stated, fails: a matched [Transfer] log with one topic for its
    two indexed parameters and a one-byte payload gives an error record,
    not a success. *)
Lemma indexed_shortfall_with_bad_payload :
  let topics := [Event.ID Transfer; from_topic] in
  let r := ParseEventLogs [TokenA; TokenB] topics [Byte.x00] in
  matched_event [TokenA; TokenB] (Event.ID Transfer) = Some Transfer
  ∧ length (drop 1 topics) < length (IndexedArgs (Event.Inputs Transfer))
  ∧ Error r ≠ ""
  ∧ Parameters r = [].
Proof.
  cbv zeta.
  assert (matched_event [TokenA; TokenB] (Event.ID Transfer) = Some Transfer)
    as Hm by reflexivity.
  assert (unpack_non_indexed Transfer [Byte.x00] ∅ =
      Err "abi: cannot marshal in to go type: length insufficient 1 require 32")
    as Hu by reflexivity.
  rewrite (ParseEventLogs_unpack_failure _ _ _ _ _ _ Hm Hu).
  repeat split; [simpl; lia | done].
Qed.

(** *** The theorems at concrete inputs *)

Lemma ParseTransactionData_too_short_witness :
  ParseTransactionData [TokenA; TokenB] [Byte.x42; Byte.x96; Byte.x6c] =
    {| MethodName := ""; MethodSignature := ""; Parameters := [];
       Error := "transaction data too short" |}.
Proof. apply ParseTransactionData_too_short. simpl. lia. Defined.

Lemma ParseTransactionData_unpack_failure_witness :
  let r := ParseTransactionData [TokenA; TokenB] burn_truncated in
  MethodName r = "burn"
  ∧ MethodSignature r = "burn(uint256)"
  ∧ Error r = "failed to unpack inputs: "
              +:+ "abi: cannot marshal in to go type: length insufficient 1 require 32"
  ∧ Error r ≠ ""
  ∧ Parameters r = [].
Proof.
  apply (ParseTransactionData_unpack_failure
           [TokenA; TokenB] burn_truncated (burn "amount")).
  - simpl. lia.
  - reflexivity.
  - reflexivity.
Defined.

Lemma ParseTransactionData_success_witness :
  let r := ParseTransactionData [TokenB; TokenA] burn_call in
  Error r = ""
  ∧ MethodName r = "burn"
  ∧ MethodSignature r = "burn(uint256)"
  ∧ length (Parameters r) = 1
  ∧ Parameters r = [{| pp_Name := "value"; pp_Type := "uint256";
                       pp_Value := "1000"; pp_Indexed := false |}].
Proof.
  apply (ParseTransactionData_success
           [TokenB; TokenA] burn_call (burn "value") [VBigInt 1000]).
  - simpl. lia.
  - reflexivity.
  - repeat constructor.
  - reflexivity.
Defined.

Lemma ParseEventLogs_indexed_shortfall_witness :
  let r := ParseEventLogs [TokenA; TokenB] [Event.ID Transfer; from_topic]
             value_500 in
  Error r = ""
  ∧ MethodName r = "Transfer"
  ∧ MethodSignature r = "Transfer(address,address,uint256)"
  ∧ length (filter (λ p, pp_Indexed p = true) (Parameters r)) = 1
  ∧ filter (λ p, pp_Indexed p = true) (Parameters r) =
      [{| pp_Name := "from"; pp_Type := "address";
          pp_Value := HashHex from_topic; pp_Indexed := true |}].
Proof.
  apply (ParseEventLogs_indexed_shortfall
           [TokenA; TokenB] (Event.ID Transfer) [from_topic] value_500 Transfer
           {["value" := VBigInt 500]}).
  - reflexivity.
  - apply (bool_decide_unpack _). vm_compute. exact I.
  - reflexivity.
  - simpl. lia.
Defined.

Lemma resolution_follows_visiting_order_witness :
  ParseTransactionData [TokenA; TokenB] pause_call
  = ParseTransactionData [TokenB; TokenA] pause_call.
Proof.
  assert ("TokenA" ≠ "TokenB") as Hne by done.
  destruct (range_over_two "TokenA" "TokenB" TokenA TokenB Hne) as [HAB HBA].
  destruct (resolution_follows_visiting_order registry
              [TokenA; TokenB] [TokenB; TokenA] pause_call
              (Event.ID Transfer) [from_topic] value_500 HAB HBA)
    as (_ & _ & Htx & _).
  apply Htx. unfold registry, ContractABIs.
  intros n n' c c' m m' Hc Hc' Hm Hm'.
  apply lookup_insert_Some in Hc as [[_ <-]|[_ Hc]]; [discriminate Hm|].
  apply lookup_insert_Some in Hc as [[_ <-]|[_ Hc]];
    [|by rewrite lookup_empty in Hc].
  apply lookup_insert_Some in Hc' as [[_ <-]|[_ Hc']]; [discriminate Hm'|].
  apply lookup_insert_Some in Hc' as [[_ <-]|[_ Hc']];
    [|by rewrite lookup_empty in Hc'].
  congruence.
Defined.

Lemma LoadContractABIs_all_or_nothing_witness :
  ∃ err, LoadContractABIs disk contracts_missing = (None, Some err).
Proof.
  apply LoadContractABIs_all_or_nothing.
  apply Exists_cons_tl, Exists_cons_hd. exact I.
Defined.

End OnFixture.

(** ** Further properties of the parsers *)

Section ParserFacts.
Context {G : GoEthereum}.
Implicit Types (visited : list ContractInfo) (data : bytes)
  (topics : list Hash) (declared : Arguments).

(** Case analysis on a statement made of equivalences between an error
    string and its cause. *)
Ltac settle_cause :=
  repeat split; intros;
  repeat match goal with
         | H : _ ∧ _ |- _ => destruct H
         | H : ∃ _, _ |- _ => destruct H
         end;
  simplify_eq; try done; try lia; try congruence; eauto 10.

(** *** What the error string tells *)

(** X1: the error string of [ParseTransactionData] names its cause: it is
    the too-short message exactly for data under four bytes, the not-found
    message exactly when no visited descriptor has the selector, empty
    exactly when a method matched and its inputs unpacked, and an unpack
    message exactly when a method matched and its inputs did not unpack. *)
Theorem ParseTransactionData_error_cause visited data :
  let r := ParseTransactionData visited data in
  (Error r = "transaction data too short" ↔ length data < 4)
  ∧ (Error r = "method not found in any loaded contract ABI"
     ↔ 4 ≤ length data ∧ matched_method visited data = None)
  ∧ (Error r = ""
     ↔ 4 ≤ length data
       ∧ ∃ method inputs, matched_method visited data = Some method
           ∧ Unpack (Method.Inputs method) (drop 4 data) = Ok inputs)
  ∧ ((∃ err, Error r = "failed to unpack inputs: " +:+ err)
     ↔ 4 ≤ length data
       ∧ ∃ method err, matched_method visited data = Some method
           ∧ Unpack (Method.Inputs method) (drop 4 data) = Err err).
Proof.
  cbv zeta. unfold ParseTransactionData.
  destruct (decide (length data < 4)) as [Hshort|Hlong]; simpl.
  { settle_cause. }
  rewrite tx_scan_matched.
  destruct (matched_method visited data) as [method|] eqn:Hm; simpl;
    [unfold tx_matched;
     destruct (Unpack (Method.Inputs method) (drop 4 data)) as [inputs|err] eqn:Hu;
     simpl|];
    settle_cause.
Qed.

(** X2: the error string of [ParseEventLogs] names its cause: the no-topics
    message exactly for an empty topic list, the not-found message exactly
    when no visited descriptor has the first topic, and the empty string
    exactly when an event matched and the step that unpacks the data
    payload did not fail. *)
Theorem ParseEventLogs_error_cause visited topics data :
  let r := ParseEventLogs visited topics data in
  (Error r = "no topics in log" ↔ topics = [])
  ∧ (Error r = "event not found in any loaded contract ABI"
     ↔ ∃ eventID rest, topics = eventID :: rest
         ∧ matched_event visited eventID = None)
  ∧ (Error r = ""
     ↔ ∃ eventID rest event eventData, topics = eventID :: rest
         ∧ matched_event visited eventID = Some event
         ∧ unpack_non_indexed event data ∅ = Ok eventData).
Proof.
  cbv zeta. destruct topics as [|eventID rest]; simpl.
  { settle_cause. }
  rewrite event_scan_matched.
  destruct (matched_event visited eventID) as [event|] eqn:Hm; simpl;
    [unfold event_matched;
     destruct (unpack_non_indexed event data ∅) as [eventData|err] eqn:Hu;
     simpl|];
    settle_cause.
Qed.

(** *** Which member a record names *)

(** X3: a record of [ParseTransactionData] names a method exactly when one
    matched: it then carries the method's name and signature whether or not
    the inputs unpacked, and otherwise name, signature and parameters are
    all empty. *)
Theorem ParseTransactionData_names_matched_method visited data :
  let r := ParseTransactionData visited data in
  (∀ method, 4 ≤ length data → matched_method visited data = Some method →
     MethodName r = Method.Name method ∧ MethodSignature r = Method.Sig method)
  ∧ (length data < 4 ∨ matched_method visited data = None →
     MethodName r = "" ∧ MethodSignature r = "" ∧ Parameters r = []).
Proof.
  cbv zeta. split.
  - intros method Hlen Hm. rewrite (ParseTransactionData_matched _ _ _ Hlen Hm).
    unfold tx_matched. by destruct (Unpack _ _).
  - unfold ParseTransactionData.
    destruct (decide (length data < 4)) as [|Hlong]; [done|].
    intros [Hshort|Hnone]; [lia|]. by rewrite tx_scan_matched, Hnone.
Qed.

(** X4: a record of [ParseEventLogs] carries the name of the matched event
    whether or not the payload unpacked, and its signature when the error is
    empty; without topics or without a match, name, signature and
    parameters are all empty. *)
Theorem ParseEventLogs_names_matched_event visited topics data :
  let r := ParseEventLogs visited topics data in
  (∀ eventID rest event,
     topics = eventID :: rest → matched_event visited eventID = Some event →
     MethodName r = Event.Name event
     ∧ (Error r = "" → MethodSignature r = Event.Sig event))
  ∧ ((topics = [] ∨ ∃ eventID rest, topics = eventID :: rest
                       ∧ matched_event visited eventID = None) →
     MethodName r = "" ∧ MethodSignature r = "" ∧ Parameters r = []).
Proof.
  cbv zeta. split.
  - intros eventID rest event -> Hm. rewrite (ParseEventLogs_matched _ _ _ _ _ Hm).
    unfold event_matched. by destruct (unpack_non_indexed _ _ _).
  - intros [->|(eventID & rest & -> & Hnone)]; [done|].
    simpl. by rewrite event_scan_matched, Hnone.
Qed.

(** *** The parameters of a decoded call *)

Lemma tx_parameters_not_indexed declared : ∀ i (inputs : list Value),
  Forall (λ p, pp_Indexed p = false) (tx_parameters i declared inputs).
Proof.
  induction declared as [|input rest IH]; intros i inputs; simpl; [done|].
  destruct (inputs !! i); [constructor|]; auto.
Qed.

(** X5: no parameter of a [ParseTransactionData] record is flagged indexed,
    whatever the flags of the method's declared inputs. *)
Theorem ParseTransactionData_never_indexed visited data :
  Forall (λ p, pp_Indexed p = false) (Parameters (ParseTransactionData visited data)).
Proof.
  unfold ParseTransactionData.
  destruct (decide (length data < 4)); [constructor|].
  rewrite tx_scan_matched.
  destruct (matched_method visited data); [|constructor].
  unfold tx_matched. destruct (Unpack _ _); [|constructor].
  apply tx_parameters_not_indexed.
Qed.

(** X6: the parameter list is cut to the values the decoder returned: with
    fewer values than declared inputs only the leading inputs are reported,
    and values beyond the declared inputs are dropped. *)
Theorem ParseTransactionData_parameters_bounded visited data method inputs :
  4 ≤ length data →
  matched_method visited data = Some method →
  Unpack (Method.Inputs method) (drop 4 data) = Ok inputs →
  let r := ParseTransactionData visited data in
  length (Parameters r) = length (Method.Inputs method) `min` length inputs
  ∧ pp_Name <$> Parameters r
    = take (length inputs) (Argument.Name <$> Method.Inputs method)
  ∧ pp_Value <$> Parameters r
    = take (length (Method.Inputs method)) (formatValue <$> inputs).
Proof.
  intros Hlen Hm Hu. cbv zeta.
  rewrite (ParseTransactionData_matched _ _ _ Hlen Hm).
  unfold tx_matched. rewrite Hu. simpl.
  rewrite tx_parameters_zip, drop_0. clear.
  generalize (Method.Inputs method). intros declared.
  revert inputs. induction declared as [|input rest IH]; intros [|value inputs];
    simpl; rewrite ?take_nil; try done.
  destruct (IH inputs) as (Hlength & Hnames & Hvalues).
  repeat split; [by rewrite Hlength | f_equal; exact Hnames | f_equal; exact Hvalues].
Qed.

(** *** The parameters of a decoded log *)

Lemma event_parameters_declared inputs (eventData : gmap string Value) :
  (λ p, (pp_Name p, pp_Type p, pp_Indexed p)) <$> event_parameters inputs eventData
  `sublist_of`
  (λ arg, (Argument.Name arg, AbiType.String (Argument.Type_ arg),
           Argument.Indexed arg)) <$> inputs.
Proof.
  induction inputs as [|input rest IH]; simpl; [constructor|].
  destruct (eventData !! Argument.Name input); simpl.
  - by apply sublist_skip.
  - by apply sublist_cons.
Qed.

(** X7: the parameters of a [ParseEventLogs] record are declared inputs of
    the matched event, each with its declared name, type and indexed flag,
    in declaration order and without repetition of an input: the record may
    leave inputs out but never adds or reorders one. *)
Theorem ParseEventLogs_parameters_declared visited eventID topics data event :
  matched_event visited eventID = Some event →
  (λ p, (pp_Name p, pp_Type p, pp_Indexed p))
    <$> Parameters (ParseEventLogs visited (eventID :: topics) data)
  `sublist_of`
  (λ arg, (Argument.Name arg, AbiType.String (Argument.Type_ arg),
           Argument.Indexed arg)) <$> Event.Inputs event.
Proof.
  intros Hm. rewrite (ParseEventLogs_matched _ _ _ _ _ Hm).
  unfold event_matched. destruct (unpack_non_indexed _ _ _); simpl.
  - apply event_parameters_declared.
  - apply sublist_nil_l.
Qed.

Lemma event_parameters_ext inputs (m1 m2 : gmap string Value) :
  (∀ arg, arg ∈ inputs → m1 !! Argument.Name arg = m2 !! Argument.Name arg) →
  event_parameters inputs m1 = event_parameters inputs m2.
Proof.
  induction inputs as [|input rest IH]; intros Hsame; simpl; [done|].
  rewrite (Hsame input) by by left.
  rewrite IH by (intros; apply Hsame; by right). done.
Qed.

(** The parameters not flagged indexed are those the payload step stored. *)
Lemma non_indexed_parameters_of_data inputs topics :
  ∀ topicIndex (eventData : gmap string Value),
  NoDup (Argument.Name <$> inputs) →
  (∀ arg, arg ∈ inputs → Argument.Indexed arg = true →
          eventData !! Argument.Name arg = None) →
  filter (λ p, pp_Indexed p = false)
    (event_parameters inputs (store_indexed inputs topics topicIndex eventData)) =
  event_parameters (NonIndexed inputs) eventData.
Proof.
  unfold NonIndexed.
  induction inputs as [|input rest IH]; intros topicIndex eventData Hnd Hfree;
    [done|].
  rewrite fmap_cons in Hnd. apply NoDup_cons in Hnd as [Hfresh Hnd].
  assert (∀ arg, arg ∈ rest → Argument.Indexed arg = true →
                 eventData !! Argument.Name arg = None) as Hrest.
  { intros; apply Hfree; [by right|done]. }
  assert (∀ arg, arg ∈ rest → Argument.Name input ≠ Argument.Name arg) as Hother.
  { intros arg Harg Heq. apply Hfresh. rewrite Heq. by apply list_elem_of_fmap_2. }
  simpl event_parameters. simpl store_indexed.
  destruct (Argument.Indexed input) eqn:Hidx.
  - rewrite filter_cons_False by congruence.
    destruct (topics !! topicIndex) as [topic|] eqn:Htopic.
    + rewrite store_indexed_lookup_other, lookup_insert_eq by done.
      rewrite filter_cons_False by (simpl; congruence).
      rewrite IH; [|done|].
      * apply event_parameters_ext. intros arg Harg.
        apply list_elem_of_filter in Harg as [_ Harg].
        rewrite lookup_insert_ne; [done|by apply Hother].
      * intros arg Harg Hargidx.
        rewrite lookup_insert_ne; [by apply Hrest|by apply Hother].
    + rewrite store_indexed_lookup_other by done.
      rewrite (Hfree input) by (done || by left). by apply IH.
  - rewrite filter_cons_True by done.
    simpl. rewrite store_indexed_lookup_other by done. rewrite ?Hidx.
    destruct (eventData !! Argument.Name input).
    + rewrite filter_cons_True by (simpl; congruence). f_equal. by apply IH.
    + by apply IH.
Qed.

Lemma filter_indexed_all (parameters : list ParsedParameter) :
  filter (λ p, pp_Indexed p = false) parameters = [] →
  filter (λ p, pp_Indexed p = true) parameters = parameters.
Proof.
  induction parameters as [|p rest IH]; [done|].
  destruct (pp_Indexed p) eqn:Hp.
  - rewrite filter_cons_False by congruence.
    rewrite filter_cons_True by done. intros Hrest. f_equal. by apply IH.
  - by rewrite filter_cons_True by done.
Qed.

Lemma event_parameters_empty inputs : event_parameters inputs ∅ = [].
Proof. induction inputs; simpl; [done|]. by rewrite lookup_empty. Qed.

(** X8: with an empty data payload nothing is unpacked and nothing fails:
    the record of a matched event with pairwise distinct parameter names
    has no error and holds exactly the indexed inputs that have a topic,
    each with its topic in hex; the inputs that are not indexed are left
    out. *)
Theorem ParseEventLogs_empty_payload visited eventID topics event :
  matched_event visited eventID = Some event →
  NoDup (Argument.Name <$> Event.Inputs event) →
  let r := ParseEventLogs visited (eventID :: topics) [] in
  Error r = ""
  ∧ Parameters r =
      zip_with (λ input topic,
                  {| pp_Name := Argument.Name input;
                     pp_Type := AbiType.String (Argument.Type_ input);
                     pp_Value := HashHex topic;
                     pp_Indexed := true |})
               (IndexedArgs (Event.Inputs event)) topics.
Proof.
  intros Hm Hnd. cbv zeta. rewrite (ParseEventLogs_matched _ _ _ _ _ Hm).
  unfold event_matched, unpack_non_indexed. simpl. split; [done|].
  rewrite <- (filter_indexed_all (event_parameters _ _)).
  - by rewrite indexed_parameters_of_topics.
  - rewrite non_indexed_parameters_of_data by done.
    apply event_parameters_empty.
Qed.

(** X9: the data payload of a log is not looked at when the matched event
    declares no input outside the topics: any payload gives the record of
    the empty payload. *)
Theorem ParseEventLogs_payload_unused visited eventID topics data event :
  matched_event visited eventID = Some event →
  NonIndexed (Event.Inputs event) = [] →
  ParseEventLogs visited (eventID :: topics) data
  = ParseEventLogs visited (eventID :: topics) [].
Proof.
  intros Hm Hnone. rewrite !(ParseEventLogs_matched _ _ _ _ _ Hm).
  unfold event_matched, unpack_non_indexed. rewrite Hnone. simpl.
  by destruct (decide (0 < length data)).
Qed.

(** *** A log with all its topics *)

Lemma store_all_keeps args : ∀ (values : list Value) (v : gmap string Value) name,
  is_Some (v !! name) → is_Some (store_all args values v !! name).
Proof.
  unfold store_all.
  induction args as [|arg rest IH]; intros values v name Hname; [done|].
  destruct values as [|value values]; [done|]. simpl. apply IH.
  destruct (decide (Argument.Name arg = name)) as [->|Hne].
  - rewrite lookup_insert_eq. eauto.
  - by rewrite lookup_insert_ne.
Qed.

Lemma store_all_is_Some args : ∀ (values : list Value) (v : gmap string Value) arg,
  length values = length args → arg ∈ args →
  is_Some (store_all args values v !! Argument.Name arg).
Proof.
  induction args as [|first rest IH]; intros values v arg Hlen Harg.
  { by apply elem_of_nil in Harg. }
  destruct values as [|value values]; [done|].
  change (store_all (first :: rest) (value :: values) v)
    with (store_all rest values (<[Argument.Name first := value]> v)).
  apply elem_of_cons in Harg as [->|Harg].
  - apply store_all_keeps. rewrite lookup_insert_eq. eauto.
  - apply IH; [simpl in Hlen; lia | done].
Qed.

Lemma store_indexed_keeps inputs topics : ∀ topicIndex eventData name,
  is_Some (eventData !! name) →
  is_Some (store_indexed inputs topics topicIndex eventData !! name).
Proof.
  induction inputs as [|input rest IH]; intros topicIndex eventData name Hname;
    [done|].
  simpl. destruct (Argument.Indexed input), (topics !! topicIndex);
    try by apply IH.
  apply IH. destruct (decide (Argument.Name input = name)) as [->|Hne].
  - rewrite lookup_insert_eq. eauto.
  - by rewrite lookup_insert_ne.
Qed.

Lemma store_indexed_is_Some inputs topics : ∀ topicIndex eventData arg,
  length (IndexedArgs inputs) + topicIndex ≤ length topics →
  arg ∈ inputs → Argument.Indexed arg = true →
  is_Some (store_indexed inputs topics topicIndex eventData !! Argument.Name arg).
Proof.
  unfold IndexedArgs.
  induction inputs as [|input rest IH]; intros topicIndex eventData arg Hlen Harg Hidx.
  { by apply elem_of_nil in Harg. }
  simpl. destruct (Argument.Indexed input) eqn:Hinput.
  - rewrite filter_cons_True in Hlen by done. simpl in Hlen.
    destruct (topics !! topicIndex) as [topic|] eqn:Htopic.
    + apply elem_of_cons in Harg as [->|Harg].
      * apply store_indexed_keeps. rewrite lookup_insert_eq. eauto.
      * apply IH; [lia|done|done].
    + apply lookup_ge_None in Htopic. lia.
  - rewrite filter_cons_False in Hlen by congruence.
    apply elem_of_cons in Harg as [->|Harg]; [congruence|].
    by apply IH.
Qed.

Lemma event_parameters_all inputs (eventData : gmap string Value) :
  (∀ arg, arg ∈ inputs → is_Some (eventData !! Argument.Name arg)) →
  pp_Name <$> event_parameters inputs eventData = Argument.Name <$> inputs.
Proof.
  induction inputs as [|input rest IH]; intros Hall; simpl; [done|].
  destruct (Hall input) as [value ->]; [by left|]. simpl. f_equal.
  apply IH. intros; apply Hall; by right.
Qed.

Lemma event_parameters_stored args : ∀ (values : list Value) (v : gmap string Value),
  NoDup (Argument.Name <$> args) → length values = length args →
  event_parameters args (store_all args values v) =
  zip_with (λ input value,
              {| pp_Name := Argument.Name input;
                 pp_Type := AbiType.String (Argument.Type_ input);
                 pp_Value := formatValue value;
                 pp_Indexed := Argument.Indexed input |})
           args values.
Proof.
  induction args as [|arg rest IH]; intros values v Hnd Hlen; [done|].
  destruct values as [|value values]; [done|].
  rewrite fmap_cons in Hnd. apply NoDup_cons in Hnd as [Hfresh Hnd].
  change (store_all (arg :: rest) (value :: values) v)
    with (store_all rest values (<[Argument.Name arg := value]> v)).
  simpl. rewrite store_all_lookup_other, lookup_insert_eq by done.
  f_equal. apply IH; [done | simpl in Hlen; lia].
Qed.

Lemma NonIndexed_names_NoDup inputs :
  NoDup (Argument.Name <$> inputs) → NoDup (Argument.Name <$> NonIndexed inputs).
Proof.
  unfold NonIndexed. intros Hnd.
  eapply sublist_NoDup; [exact Hnd|].
  apply fmap_sublist, sublist_filter.
Qed.

(** X10: a log of a matched event with pairwise distinct parameter names,
    at least one topic per indexed input and a payload that unpacks gives a
    record with every declared input, in declaration order: the indexed
    ones with their topic in hex (topics beyond the indexed inputs are
    ignored), the others with the formatted value the decoder stored. *)
Theorem ParseEventLogs_complete_log `{!GoEthereumSpec G}
    visited eventID topics data event eventData :
  matched_event visited eventID = Some event →
  NoDup (Argument.Name <$> Event.Inputs event) →
  (NonIndexed (Event.Inputs event) ≠ [] → 0 < length data) →
  unpack_non_indexed event data ∅ = Ok eventData →
  length (IndexedArgs (Event.Inputs event)) ≤ length topics →
  let r := ParseEventLogs visited (eventID :: topics) data in
  Error r = ""
  ∧ pp_Name <$> Parameters r = Argument.Name <$> Event.Inputs event
  ∧ filter (λ p, pp_Indexed p = true) (Parameters r) =
      zip_with (λ input topic,
                  {| pp_Name := Argument.Name input;
                     pp_Type := AbiType.String (Argument.Type_ input);
                     pp_Value := HashHex topic;
                     pp_Indexed := true |})
               (IndexedArgs (Event.Inputs event)) topics
  ∧ ∃ values,
      length values = length (NonIndexed (Event.Inputs event))
      ∧ eventData = store_all (NonIndexed (Event.Inputs event)) values ∅
      ∧ filter (λ p, pp_Indexed p = false) (Parameters r) =
          zip_with (λ input value,
                      {| pp_Name := Argument.Name input;
                         pp_Type := AbiType.String (Argument.Type_ input);
                         pp_Value := formatValue value;
                         pp_Indexed := Argument.Indexed input |})
                   (NonIndexed (Event.Inputs event)) values.
Proof.
  intros Hm Hnd Hdata Hu Htopics. cbv zeta.
  assert (∀ arg, arg ∈ Event.Inputs event → Argument.Indexed arg = true →
                 eventData !! Argument.Name arg = None) as Hfree.
  { intros arg Harg Hidx. by eapply unpack_non_indexed_keys. }
  assert (∃ values,
            length values = length (NonIndexed (Event.Inputs event))
            ∧ eventData = store_all (NonIndexed (Event.Inputs event)) values ∅)
    as (values & Hlen & Hstored).
  { unfold unpack_non_indexed in Hu.
    destruct (NonIndexed (Event.Inputs event)) as [|arg args] eqn:Hnon.
    - exists []. split; [done|].
      destruct (decide (0 < length data)); simpl in Hu; by injection Hu as <-.
    - destruct (decide (0 < length data)) as [|Hzero];
        [|destruct Hzero; by apply Hdata].
      simpl in Hu. apply UnpackIntoMap_stores in Hu as (values & Hlen & Hmap).
      exists values. by rewrite <- Hnon. }
  rewrite (ParseEventLogs_matched _ _ _ _ _ Hm).
  unfold event_matched. rewrite Hu. simpl.
  split; [done|]. split; [|split].
  - apply event_parameters_all. intros arg Harg.
    destruct (Argument.Indexed arg) eqn:Hidx.
    + apply store_indexed_is_Some; [simpl; lia|done|done].
    + apply store_indexed_keeps. rewrite Hstored.
      apply store_all_is_Some; [done|].
      unfold NonIndexed. by apply list_elem_of_filter.
  - by apply indexed_parameters_of_topics.
  - exists values. split; [done|]. split; [done|].
    rewrite non_indexed_parameters_of_data by done.
    rewrite Hstored. apply event_parameters_stored; [|done].
    by apply NonIndexed_names_NoDup.
Qed.

(** *** Ranging over the registry *)

(** X11: whether a member is found does not depend on the order in which
    the registry is visited: the record is the not-found record exactly
    when no loaded descriptor has the selector, respectively the first
    topic. *)
Theorem not_found_whatever_the_order contractABIs visited data eventID topics :
  range_over contractABIs visited →
  (Error (ParseTransactionData visited data)
     = "method not found in any loaded contract ABI"
   ↔ 4 ≤ length data
     ∧ ∀ name contractInfo method,
         contractABIs !! name = Some contractInfo →
         MethodById (ci_ABI contractInfo) (take 4 data) ≠ Ok method)
  ∧ (Error (ParseEventLogs visited (eventID :: topics) data)
       = "event not found in any loaded contract ABI"
     ↔ ∀ name contractInfo event,
         contractABIs !! name = Some contractInfo →
         EventByID (ci_ABI contractInfo) eventID ≠ Ok event).
Proof.
  intros Hv. split.
  - destruct (ParseTransactionData_error_cause visited data) as (_ & -> & _).
    split; intros [Hlen Hnone]; (split; [done|]).
    + intros name ci method Hname.
      apply (first_match_None _ _ _ _ Hnone).
      apply (range_over_loaded _ _ _ Hv). eauto.
    + destruct (matched_method visited data) as [method|] eqn:Hm; [|done].
      apply first_match_Some in Hm as (ci & [name Hname]%(range_over_loaded _ _ _ Hv) & Hci).
      by destruct (Hnone name ci method).
  - destruct (ParseEventLogs_error_cause visited (eventID :: topics) data)
      as (_ & -> & _).
    split.
    + intros (eventID' & rest & [= <- <-] & Hnone) name ci event Hname.
      apply (first_match_None _ _ _ _ Hnone).
      apply (range_over_loaded _ _ _ Hv). eauto.
    + intros Hnone. exists eventID, topics. split; [done|].
      destruct (matched_event visited eventID) as [event|] eqn:Hm; [|done].
      apply first_match_Some in Hm as (ci & [name Hname]%(range_over_loaded _ _ _ Hv) & Hci).
      by destruct (Hnone name ci event).
Qed.

(** *** Loading the registry *)

Lemma load_fails_dec ReadFile contract :
  load_fails ReadFile contract ∨ ¬ load_fails ReadFile contract.
Proof.
  unfold load_fails.
  destruct (ReadFile _) as [abiBytes|]; [destruct (JSON abiBytes)|]; tauto.
Qed.

(** X12: [LoadContractABIs] returns a registry and no error exactly when
    every file of the list is read and parsed, and an error and no registry
    exactly when one is not: never both, never neither. *)
Theorem LoadContractABIs_succeeds_iff ReadFile contracts :
  ((∃ loaded, LoadContractABIs ReadFile contracts = (Some loaded, None))
   ↔ Forall (λ contract, ¬ load_fails ReadFile contract) contracts)
  ∧ ((∃ err, LoadContractABIs ReadFile contracts = (None, Some err))
     ↔ Exists (load_fails ReadFile) contracts).
Proof.
  assert (Forall (λ contract, ¬ load_fails ReadFile contract) contracts
          ∨ Exists (load_fails ReadFile) contracts) as Hcases.
  { induction contracts as [|contract rest [IH|IH]].
    - left. constructor.
    - destruct (load_fails_dec ReadFile contract).
      + right. by left.
      + left. by constructor.
    - right. by right. }
  unfold LoadContractABIs. split; split.
  - intros [loaded Hloaded]. destruct Hcases as [|Hex]; [done|].
    destruct (load_from_fails ReadFile contracts ∅ Hex). congruence.
  - apply load_from_succeeds.
  - intros [err Herr]. destruct Hcases as [Hall|]; [|done].
    destruct (load_from_succeeds ReadFile contracts ∅ Hall). congruence.
  - apply load_from_fails.
Qed.

(** The registry after the loop, entry by entry: the last contract of the
    list with a given name decides, and names not in the list keep what the
    map held. *)
Lemma load_from_lookup ReadFile contracts :
  ∀ (contractABIs loaded : gmap string ContractInfo) name,
  load_from ReadFile contracts contractABIs = (Some loaded, None) →
  loaded !! name =
    match last (filter (λ contract, ContractConfig.Name contract = name) contracts) with
    | Some contract => loaded_descriptor ReadFile contract
    | None => contractABIs !! name
    end.
Proof.
  unfold ContractABIs.
  induction contracts as [|contract rest IH]; intros contractABIs loaded name; simpl.
  { by intros [= <-]. }
  unfold loaded_descriptor at 1.
  destruct (ReadFile (ContractConfig.Path contract)) as [abiBytes|] eqn:Hread;
    [|done].
  destruct (JSON abiBytes) as [contractABI|] eqn:Hjson; [|done].
  intros Hrest. rewrite (IH _ _ name Hrest).
  destruct (decide (ContractConfig.Name contract = name)) as [Hname|Hname].
  - rewrite filter_cons_True by done. rewrite last_cons.
    destruct (last (filter _ rest)); [done|].
    subst name. unfold loaded_descriptor. rewrite Hread, Hjson.
    unfold ContractABIs. apply lookup_insert_eq.
  - rewrite filter_cons_False by done.
    destruct (last (filter _ rest)); [done|].
    unfold ContractABIs. by rewrite lookup_insert_ne.
Qed.

(** X13: in the registry [LoadContractABIs] returns, the entry under a name
    is the descriptor of the last contract of the list with that name: a
    later contract replaces an earlier one of the same name, and a name
    that is not in the list has no entry. *)
Theorem LoadContractABIs_last_wins ReadFile contracts (loaded : gmap string ContractInfo) name :
  LoadContractABIs ReadFile contracts = (Some loaded, None) →
  loaded !! name =
    last (filter (λ contract, ContractConfig.Name contract = name) contracts)
    ≫= loaded_descriptor ReadFile.
Proof.
  intros Hloaded. rewrite (load_from_lookup _ _ _ _ name Hloaded).
  destruct (last _); [done|]. unfold ContractABIs. apply lookup_empty.
Qed.

(** X14: the keys of the loaded registry are exactly the names of the
    list, and the entry under a key carries that key as its [Name] and
    comes from a contract of the list with that name. *)
Theorem LoadContractABIs_keys ReadFile contracts (loaded : gmap string ContractInfo) :
  LoadContractABIs ReadFile contracts = (Some loaded, None) →
  (∀ name, is_Some (loaded !! name) ↔ name ∈ ContractConfig.Name <$> contracts)
  ∧ (∀ name contractInfo, loaded !! name = Some contractInfo →
       ci_Name contractInfo = name
       ∧ ∃ contract, contract ∈ contracts
           ∧ ContractConfig.Name contract = name
           ∧ loaded_descriptor ReadFile contract = Some contractInfo).
Proof.
  intros Hloaded.
  assert (Forall (λ contract, ¬ load_fails ReadFile contract) contracts) as Hall.
  { apply LoadContractABIs_succeeds_iff. eauto. }
  assert (∀ contract, contract ∈ contracts →
            ∃ contractABI, loaded_descriptor ReadFile contract
              = Some {| ci_Name := ContractConfig.Name contract;
                        ci_ABI := contractABI |}) as Hdesc.
  { intros contract Hin. rewrite Forall_forall in Hall.
    specialize (Hall contract Hin). unfold load_fails, loaded_descriptor in *.
    destruct (ReadFile _) as [abiBytes|]; [|tauto].
    destruct (JSON abiBytes); [eauto|tauto]. }
  split.
  - intros name. rewrite (LoadContractABIs_last_wins _ _ _ name Hloaded). split.
    + destruct (last _) as [contract|] eqn:Hlast; [|by intros [? ?]].
      intros _. apply last_Some in Hlast as [l' Hl'].
      assert (contract ∈ filter (λ c, ContractConfig.Name c = name) contracts)
        as [<- Hin]%list_elem_of_filter.
      { rewrite Hl'. apply elem_of_app. right. by left. }
      by apply list_elem_of_fmap_2.
    + intros (contract & -> & Hin)%list_elem_of_fmap.
      destruct (last (filter (λ c, ContractConfig.Name c = ContractConfig.Name contract)
                        contracts)) as [chosen|] eqn:Hlast.
      * apply last_Some in Hlast as [l' Hl'].
        assert (chosen ∈ filter (λ c, ContractConfig.Name c = ContractConfig.Name contract)
                           contracts) as [_ Hchosen]%list_elem_of_filter.
        { rewrite Hl'. apply elem_of_app. right. by left. }
        destruct (Hdesc chosen Hchosen) as [contractABI Heq]. simpl. rewrite Heq. eauto.
      * apply last_None in Hlast.
        assert (contract ∈ filter (λ c, ContractConfig.Name c = ContractConfig.Name contract)
                             contracts) as Hcontra.
        { by apply list_elem_of_filter. }
        rewrite Hlast in Hcontra. by apply elem_of_nil in Hcontra.
  - intros name contractInfo.
    rewrite (LoadContractABIs_last_wins _ _ _ name Hloaded).
    destruct (last _) as [contract|] eqn:Hlast; [|done]. simpl. intros Hci.
    apply last_Some in Hlast as [l' Hl'].
    assert (contract ∈ filter (λ c, ContractConfig.Name c = name) contracts)
      as [Hname Hin]%list_elem_of_filter.
    { rewrite Hl'. apply elem_of_app. right. by left. }
    split; [|eauto].
    destruct (Hdesc contract Hin) as [contractABI Heq].
    rewrite Heq in Hci. injection Hci as <-. done.
Qed.

Lemma filter_none {A} (P : A → Prop) `{∀ x, Decision (P x)} (l : list A) :
  Forall (λ x, ¬ P x) l → filter P l = [].
Proof.
  induction 1 as [|x rest Hx _ IH]; [done|].
  by rewrite filter_cons_False.
Qed.

Lemma filter_name_short (contracts : list ContractConfig.t) name :
  NoDup (ContractConfig.Name <$> contracts) →
  length (filter (λ contract, ContractConfig.Name contract = name) contracts) ≤ 1.
Proof.
  induction contracts as [|contract rest IH]; intros Hnd; [simpl; lia|].
  rewrite fmap_cons in Hnd. apply NoDup_cons in Hnd as [Hfresh Hnd].
  destruct (decide (ContractConfig.Name contract = name)) as [Hname|Hname].
  - rewrite filter_cons_True by done.
    assert (filter (λ c, ContractConfig.Name c = name) rest = []) as ->; [|simpl; lia].
    apply filter_none, Forall_forall. intros other Hother Hsame.
    apply Hfresh. rewrite Hname, <- Hsame. by apply list_elem_of_fmap_2.
  - rewrite filter_cons_False by done. by apply IH.
Qed.

(** X15: with pairwise distinct names the loaded registry does not depend
    on the order of the list: any reordering of the contracts loads the
    same registry. *)
Theorem LoadContractABIs_order_irrelevant ReadFile contracts contracts'
    (loaded : gmap string ContractInfo) :
  NoDup (ContractConfig.Name <$> contracts) →
  contracts ≡ₚ contracts' →
  LoadContractABIs ReadFile contracts = (Some loaded, None) →
  LoadContractABIs ReadFile contracts' = (Some loaded, None).
Proof.
  intros Hnd Hperm Hloaded.
  assert (∃ loaded', LoadContractABIs ReadFile contracts' = (Some loaded', None))
    as [loaded' Hloaded'].
  { apply LoadContractABIs_succeeds_iff. rewrite <- Hperm.
    apply LoadContractABIs_succeeds_iff. eauto. }
  rewrite Hloaded'. do 2 f_equal. unfold ContractABIs in *.
  apply map_eq. intros name.
  rewrite (LoadContractABIs_last_wins _ _ _ name Hloaded).
  rewrite (LoadContractABIs_last_wins _ _ _ name Hloaded').
  f_equal. f_equal.
  pose proof (filter_name_short contracts name Hnd) as Hshort.
  assert (filter (λ c, ContractConfig.Name c = name) contracts
          ≡ₚ filter (λ c, ContractConfig.Name c = name) contracts') as Hfilter.
  { by rewrite Hperm. }
  destruct (filter (λ c, ContractConfig.Name c = name) contracts) as [|c [|c' l]].
  - by apply Permutation_nil_l in Hfilter.
  - by apply Permutation_singleton_l in Hfilter.
  - simpl in Hshort. lia.
Qed.

Lemma load_from_first_failure ReadFile pre contract post err :
  ∀ contractABIs,
  Forall (λ c, ¬ load_fails ReadFile c) pre →
  load_error ReadFile contract = Some err →
  load_from ReadFile (pre ++ contract :: post) contractABIs = (None, Some err).
Proof.
  intros contractABIs Hpre Herr. revert contractABIs.
  induction Hpre as [|c pre Hc _ IH]; intros contractABIs; simpl.
  - unfold load_error in Herr.
    destruct (ReadFile (ContractConfig.Path contract)) as [abiBytes|];
      [|congruence].
    destruct (JSON abiBytes); [done|congruence].
  - unfold load_fails in Hc.
    destruct (ReadFile (ContractConfig.Path c)) as [abiBytes|]; [|tauto].
    destruct (JSON abiBytes); [apply IH|tauto].
Qed.

(** X16: the error of [LoadContractABIs] is the one of the first contract
    of the list whose file is not read or not parsed: a read error is
    reported with that file's path, a parse error with that contract's
    name, and the contracts after it have no effect on the result. *)
Theorem LoadContractABIs_first_failure ReadFile pre contract post :
  Forall (λ c, ¬ load_fails ReadFile c) pre →
  (∀ err, ReadFile (ContractConfig.Path contract) = Err err →
     LoadContractABIs ReadFile (pre ++ contract :: post)
     = (None, Some ("failed to read ABI file " +:+ ContractConfig.Path contract
                    +:+ ": " +:+ err)))
  ∧ (∀ abiBytes err,
       ReadFile (ContractConfig.Path contract) = Ok abiBytes →
       JSON abiBytes = Err err →
       LoadContractABIs ReadFile (pre ++ contract :: post)
       = (None, Some ("failed to parse ABI for contract "
                      +:+ ContractConfig.Name contract +:+ ": " +:+ err))).
Proof.
  intros Hpre. split.
  - intros err Hread. apply load_from_first_failure; [done|].
    unfold load_error. by rewrite Hread.
  - intros abiBytes err Hread Hjson. apply load_from_first_failure; [done|].
    unfold load_error. by rewrite Hread, Hjson.
Qed.

(** X17: a selector of a descriptor that was loaded and not replaced by a
    later contract of the same name is found by [ParseTransactionData],
    whatever the order in which the registry is visited: the record is not
    the not-found record and names a method. *)
Theorem loaded_method_is_found ReadFile pre contract post
    (loaded : gmap string ContractInfo) visited data contractInfo method :
  LoadContractABIs ReadFile (pre ++ contract :: post) = (Some loaded, None) →
  Forall (λ c, ContractConfig.Name c ≠ ContractConfig.Name contract) post →
  loaded_descriptor ReadFile contract = Some contractInfo →
  MethodById (ci_ABI contractInfo) (take 4 data) = Ok method →
  range_over loaded visited →
  4 ≤ length data →
  ∃ found, matched_method visited data = Some found
           ∧ MethodName (ParseTransactionData visited data) = Method.Name found
           ∧ Error (ParseTransactionData visited data)
             ≠ "method not found in any loaded contract ABI".
Proof.
  intros Hloaded Hpost Hdesc Hmethod Hv Hlen.
  assert (loaded !! ContractConfig.Name contract = Some contractInfo) as Hentry.
  { rewrite (LoadContractABIs_last_wins _ _ _ _ Hloaded).
    rewrite filter_app, filter_cons_True by done.
    rewrite (filter_none _ post) by done.
    rewrite last_snoc. done. }
  destruct (matched_method visited data) as [found|] eqn:Hm.
  - exists found. split; [done|].
    destruct (ParseTransactionData_names_matched_method visited data)
      as [Hnames _].
    destruct (Hnames found Hlen Hm) as [Hname _]. split; [done|].
    intros Herr.
    apply (ParseTransactionData_error_cause visited data) in Herr as [_ Hnone].
    congruence.
  - assert (contractInfo ∈ visited) as Hin.
    { apply (range_over_loaded _ _ _ Hv). eauto. }
    by destruct (first_match_None _ _ _ method Hm Hin).
Qed.

(** *** Hex rendering *)

Lemma Hex2Bytes_hex_of_byte v rest :
  Fixture.Hex2Bytes (hex_of_byte v rest) = v :: Fixture.Hex2Bytes rest.
Proof. unfold hex_of_byte. destruct v; reflexivity. Qed.

Lemma Hex2Bytes_Bytes2Hex d : Fixture.Hex2Bytes (Bytes2Hex d) = d.
Proof.
  induction d as [|v d IH]; [done|].
  by rewrite Bytes2Hex_cons, Hex2Bytes_hex_of_byte, IH.
Qed.

(** X18: the hex rendering loses nothing: the bytes of a formatted byte
    slice and of an indexed parameter's topic are read back from the
    string, so different byte slices, and different topics, are rendered
    differently. *)
Theorem hex_rendering_lossless :
  (∀ b, Fixture.Hex2Bytes (formatValue (VBytes b)) = b)
  ∧ (∀ b1 b2, formatValue (VBytes b1) = formatValue (VBytes b2) → b1 = b2)
  ∧ (∀ topic, HashHex topic = "0x" +:+ Bytes2Hex topic
              ∧ String.length (HashHex topic) = 2 + 2 * length topic)
  ∧ (∀ topic1 topic2, HashHex topic1 = HashHex topic2 → topic1 = topic2).
Proof.
  assert (∀ b1 b2, Bytes2Hex b1 = Bytes2Hex b2 → b1 = b2) as Hinj.
  { intros b1 b2 Heq.
    by rewrite <- (Hex2Bytes_Bytes2Hex b1), Heq, Hex2Bytes_Bytes2Hex. }
  split; [|split; [|split]].
  - intros b. apply Hex2Bytes_Bytes2Hex.
  - intros b1 b2. apply Hinj.
  - intros topic. split; [done|].
    change (String.length (HashHex topic))
      with (S (S (String.length (Bytes2Hex topic)))).
    by rewrite Bytes2Hex_length.
  - intros topic1 topic2 [= Heq]. by apply Hinj.
Qed.

End ParserFacts.

(** ** The further properties at concrete inputs *)

Section OnScenarios.
Import Fixture Samples Scenarios.
#[local] Existing Instance geth_spec.

(** C6, as stated, fails: the decoder returns values for the inputs that
    are not flagged indexed only, so a call of [odd], whose first input is
    flagged indexed, decodes without error into one parameter for two
    declared inputs: the first input's name with the value decoded for the
    second. *)
Lemma indexed_method_input_drops_a_parameter :
  let r := @ParseTransactionData geth [Odd] odd_call in
  @matched_method geth [Odd] odd_call = Some odd
  ∧ @Unpack geth (Method.Inputs odd) (drop 4 odd_call) = Ok [VBigInt 7]
  ∧ Error r = ""
  ∧ length (Method.Inputs odd) = 2
  ∧ Parameters r = [{| pp_Name := "a"; pp_Type := "uint256";
                       pp_Value := "7"; pp_Indexed := false |}].
Proof.
  cbv zeta.
  assert (@ParseTransactionData geth [Odd] odd_call =
          {| MethodName := "odd"; MethodSignature := "odd(uint256,uint256)";
             Parameters := [{| pp_Name := "a"; pp_Type := "uint256";
                               pp_Value := "7"; pp_Indexed := false |}];
             Error := "" |}) as -> by reflexivity.
  repeat split; reflexivity.
Qed.

Lemma ParseTransactionData_parameters_bounded_witness :
  let r := @ParseTransactionData geth [TokenA; TokenB] burn_call in
  length (Parameters r) = 1
  ∧ pp_Name <$> Parameters r = ["amount"]
  ∧ pp_Value <$> Parameters r = ["1000"].
Proof.
  apply (@ParseTransactionData_parameters_bounded geth
           [TokenA; TokenB] burn_call (burn "amount") [VBigInt 1000]).
  - simpl. lia.
  - reflexivity.
  - reflexivity.
Defined.

Lemma ParseEventLogs_parameters_declared_witness :
  (λ p, (pp_Name p, pp_Type p, pp_Indexed p))
    <$> Parameters (@ParseEventLogs geth [TokenA; TokenB]
                      [Event.ID Transfer; from_topic] value_500)
  `sublist_of`
  [("from", "address", true); ("to", "address", true); ("value", "uint256", false)].
Proof.
  apply (@ParseEventLogs_parameters_declared geth
           [TokenA; TokenB] (Event.ID Transfer) [from_topic] value_500 Transfer).
  reflexivity.
Defined.

Lemma ParseEventLogs_empty_payload_witness :
  let r := @ParseEventLogs geth [TokenA; TokenB] [Event.ID Transfer; from_topic] [] in
  Error r = ""
  ∧ Parameters r = [{| pp_Name := "from"; pp_Type := "address";
                       pp_Value := HashHex from_topic; pp_Indexed := true |}].
Proof.
  apply (@ParseEventLogs_empty_payload geth
           [TokenA; TokenB] (Event.ID Transfer) [from_topic] Transfer).
  - reflexivity.
  - apply (bool_decide_unpack _). vm_compute. exact I.
Defined.

Lemma ParseEventLogs_payload_unused_witness :
  @ParseEventLogs geth [Ownable]
    [Event.ID OwnershipTransferred; from_topic; to_topic] value_500
  = @ParseEventLogs geth [Ownable]
      [Event.ID OwnershipTransferred; from_topic; to_topic] [].
Proof.
  apply (@ParseEventLogs_payload_unused geth [Ownable]
           (Event.ID OwnershipTransferred) [from_topic; to_topic] value_500
           OwnershipTransferred).
  - reflexivity.
  - reflexivity.
Defined.

Lemma ParseEventLogs_complete_log_witness :
  let r := @ParseEventLogs geth [TokenA; TokenB]
             [Event.ID Transfer; from_topic; to_topic] value_500 in
  Error r = ""
  ∧ pp_Name <$> Parameters r = ["from"; "to"; "value"]
  ∧ filter (λ p, pp_Indexed p = true) (Parameters r) =
      [{| pp_Name := "from"; pp_Type := "address";
          pp_Value := HashHex from_topic; pp_Indexed := true |};
       {| pp_Name := "to"; pp_Type := "address";
          pp_Value := HashHex to_topic; pp_Indexed := true |}]
  ∧ ∃ values,
      length values = 1
      ∧ ({["value" := VBigInt 500]} : gmap string Value)
        = store_all (NonIndexed (Event.Inputs Transfer)) values ∅
      ∧ filter (λ p, pp_Indexed p = false) (Parameters r) =
          zip_with (λ input value,
                      {| pp_Name := Argument.Name input;
                         pp_Type := AbiType.String (Argument.Type_ input);
                         pp_Value := formatValue value;
                         pp_Indexed := Argument.Indexed input |})
                   (NonIndexed (Event.Inputs Transfer)) values.
Proof.
  apply (@ParseEventLogs_complete_log geth geth_spec
           [TokenA; TokenB] (Event.ID Transfer) [from_topic; to_topic] value_500
           Transfer {["value" := VBigInt 500]}).
  - reflexivity.
  - apply (bool_decide_unpack _). vm_compute. exact I.
  - intros _. simpl. lia.
  - reflexivity.
  - simpl. lia.
Defined.

Lemma not_found_whatever_the_order_witness :
  (Error (@ParseTransactionData geth [TokenB; TokenA] pause_call)
     = "method not found in any loaded contract ABI"
   ↔ 4 ≤ length pause_call
     ∧ ∀ name contractInfo method,
         registry !! name = Some contractInfo →
         MethodById (ci_ABI contractInfo) (take 4 pause_call) ≠ Ok method)
  ∧ (Error (@ParseEventLogs geth [TokenB; TokenA] [from_topic] pause_call)
       = "event not found in any loaded contract ABI"
     ↔ ∀ name contractInfo event,
         registry !! name = Some contractInfo →
         EventByID (ci_ABI contractInfo) from_topic ≠ Ok event).
Proof.
  apply (@not_found_whatever_the_order geth registry [TokenB; TokenA]
           pause_call from_topic []).
  assert ("TokenA" ≠ "TokenB") as Hne by done.
  apply (range_over_two "TokenA" "TokenB" TokenA TokenB Hne).
Defined.

Lemma LoadContractABIs_last_wins_witness :
  (<["Vault" := {| ci_Name := "Vault";
                   ci_ABI := {| Methods := []; Events := [] |} |}]> ∅
     : gmap string (@ContractInfo geth_files)) !! "Vault"
  = last (filter (λ contract, ContractConfig.Name contract = "Vault")
            [pausable; shadow])
    ≫= @loaded_descriptor geth_files files.
Proof.
  apply (@LoadContractABIs_last_wins geth_files files [pausable; shadow]).
  reflexivity.
Defined.

Lemma LoadContractABIs_keys_witness :
  let loaded : gmap string (@ContractInfo geth_files) :=
    <["Empty" := Empty]> (<["Vault" := Vault]> ∅) in
  (∀ name, is_Some (loaded !! name)
           ↔ name ∈ ContractConfig.Name <$> [pausable; empty])
  ∧ (∀ name contractInfo, loaded !! name = Some contractInfo →
       ci_Name contractInfo = name
       ∧ ∃ contract, contract ∈ [pausable; empty]
           ∧ ContractConfig.Name contract = name
           ∧ @loaded_descriptor geth_files files contract = Some contractInfo).
Proof.
  apply (@LoadContractABIs_keys geth_files files [pausable; empty]).
  reflexivity.
Defined.

Lemma LoadContractABIs_order_irrelevant_witness :
  @LoadContractABIs geth_files files [empty; pausable]
  = (Some (<["Empty" := Empty]> (<["Vault" := Vault]> ∅)), None).
Proof.
  apply (@LoadContractABIs_order_irrelevant geth_files files
           [pausable; empty] [empty; pausable]).
  - apply (bool_decide_unpack _). vm_compute. exact I.
  - apply perm_swap.
  - reflexivity.
Defined.

Lemma LoadContractABIs_first_failure_witness :
  @LoadContractABIs geth_files files ([pausable] ++ missing :: [broken])
  = (None, Some ("failed to read ABI file abi/none.json: "
                 +:+ "open abi/none.json: no such file or directory")).
Proof.
  assert (Forall (λ c, ¬ @load_fails geth_files files c) [pausable]) as Hpre.
  { repeat constructor. intros Hfails. exact Hfails. }
  destruct (@LoadContractABIs_first_failure geth_files files
              [pausable] missing [broken] Hpre) as [Hread _].
  apply Hread. reflexivity.
Defined.

Lemma loaded_method_is_found_witness :
  ∃ found, @matched_method geth_files [Vault; Empty] pause_call = Some found
           ∧ MethodName (@ParseTransactionData geth_files [Vault; Empty] pause_call)
             = Method.Name found
           ∧ Error (@ParseTransactionData geth_files [Vault; Empty] pause_call)
             ≠ "method not found in any loaded contract ABI".
Proof.
  apply (@loaded_method_is_found geth_files files [empty] pausable []
           (<["Vault" := Vault]> (<["Empty" := Empty]> ∅))
           [Vault; Empty] pause_call Vault pause).
  - reflexivity.
  - constructor.
  - reflexivity.
  - reflexivity.
  - assert ("Empty" ≠ "Vault") as Hne by done.
    apply (@range_over_two geth_files "Empty" "Vault" Empty Vault Hne).
  - simpl. lia.
Defined.

End OnScenarios.
